(** * Grocify ML service: the recipe parser, the collector and the request handler

    A shallow embedding of [src/ml_service/main.py] and the properties of
    its specification.

    Text.  A Python [str] is modelled as a list of characters, [list ascii].
    The model is exact on 7-bit ASCII text: whitespace, case mapping and
    decimal rendering follow CPython on code points below 128; the codes
    128..255 of [ascii] stand for characters that are neither whitespace
    nor cased.

    Effects.  The module-level globals of the service (the tokenizer's
    special tokens, the text2text pipeline, the UUID source) are gathered in
    a [Runtime] record; logging, the calls made to the pipeline and the
    UUIDs drawn are threaded through an explicit [World].  Exceptions are
    values of [exn], carried by the [res] monad. *)

From Stdlib Require Import Ascii String DecimalString.
From Stdlib Require DecimalNat.
From Stdlib Require Import List Arith Lia Bool Permutation.
Import ListNotations.

(** ** Python string primitives *)

Module Py.

Definition str := list ascii.

(** A literal of the source. *)
Definition lit (s : string) : str := list_ascii_of_string s.

Definition NL : ascii := ascii_of_nat 10.

(** [str.isspace] on one character (ASCII range): TAB, LF, VT, FF, CR,
    FS, GS, RS, US and SPACE. *)
Definition isspace (c : ascii) : bool :=
  let n := nat_of_ascii c in
  ((9 <=? n) && (n <=? 13)) || ((28 <=? n) && (n <=? 32)).

Definition isupper (c : ascii) : bool :=
  let n := nat_of_ascii c in (65 <=? n) && (n <=? 90).

Definition islower (c : ascii) : bool :=
  let n := nat_of_ascii c in (97 <=? n) && (n <=? 122).

Definition lower_char (c : ascii) : ascii :=
  if isupper c then ascii_of_nat (nat_of_ascii c + 32) else c.

Definition upper_char (c : ascii) : ascii :=
  if islower c then ascii_of_nat (nat_of_ascii c - 32) else c.

(** [s.lower()] *)
Definition lower (s : str) : str := map lower_char s.

(** [s.capitalize()] on ASCII text: first character upper-cased, the rest
    lower-cased.  Beyond ASCII, CPython maps case through the full Unicode
    tables (one character may become two, and [capitalize] is then not
    idempotent); what is proved of [capitalize] itself is stated for ASCII
    text, see [ascii_text]. *)
Definition capitalize (s : str) : str :=
  match s with
  | [] => []
  | c :: r => upper_char c :: lower r
  end.

(** A character of the 7-bit ASCII range, and text made of such. *)
Definition is_ascii (c : ascii) : bool := nat_of_ascii c <? 128.

Definition ascii_text (s : str) : bool := forallb is_ascii s.

(** [a == b] *)
Fixpoint str_eqb (a b : str) : bool :=
  match a, b with
  | [], [] => true
  | c :: a', d :: b' => Ascii.eqb c d && str_eqb a' b'
  | _, _ => false
  end.

(** Truth value of a string: [bool(s)], true when non-empty. *)
Definition truthy (s : str) : bool :=
  match s with [] => false | _ :: _ => true end.

(** [s.startswith(p)] *)
Fixpoint startswith (s p : str) {struct p} : bool :=
  match p, s with
  | [], _ => true
  | c :: p', d :: s' => Ascii.eqb c d && startswith s' p'
  | _ :: _, [] => false
  end.

Fixpoint lstrip (s : str) : str :=
  match s with
  | [] => []
  | c :: r => if isspace c then lstrip r else s
  end.

Definition rstrip (s : str) : str := rev (lstrip (rev s)).

(** [s.strip()] *)
Definition strip (s : str) : str := rstrip (lstrip s).

(** [s[:n]] for a non-negative literal [n]. *)
Definition slice_to (n : nat) (s : str) : str := firstn n s.

(** Left-to-right scan of [replace]: [skip] counts the characters of a
    matched occurrence that are still to be passed over. *)
Fixpoint replace_scan (old new : str) (skip : nat) (s : str) : str :=
  match s with
  | [] => []
  | c :: r =>
      match skip with
      | S k => replace_scan old new k r
      | O =>
          if startswith s old
          then new ++ replace_scan old new (length old - 1) r
          else c :: replace_scan old new 0 r
      end
  end.

(** [s.replace(old, new)]: every non-overlapping occurrence, leftmost
    first.  With an empty [old], Python puts [new] before every character
    and at the end. *)
Definition replace (old new : str) (s : str) : str :=
  match old with
  | [] => new ++ flat_map (fun c => c :: new) s
  | _ :: _ => replace_scan old new 0 s
  end.

(** [c] put in front of the first piece of a split. *)
Definition cons_head (c : ascii) (l : list str) : list str :=
  match l with
  | h :: t => (c :: h) :: t
  | [] => [[c]]
  end.

(** Left-to-right scan of [split], cutting at every non-overlapping
    occurrence of [sep], leftmost first. *)
Fixpoint split_scan (sep : str) (skip : nat) (s : str) : list str :=
  match s with
  | [] => [[]]
  | c :: r =>
      match skip with
      | S k => split_scan sep k r
      | O =>
          if startswith s sep
          then [] :: split_scan sep (length sep - 1) r
          else cons_head c (split_scan sep 0 r)
      end
  end.

(** [s.split(sep)] for a non-empty separator. *)
Definition split (sep : str) (s : str) : list str := split_scan sep 0 s.

(** [s.split(sep, 1)] for a non-empty separator: at most one cut, at the
    leftmost occurrence. *)
Fixpoint split1 (sep : str) (s : str) : list str :=
  match s with
  | [] => [[]]
  | c :: r =>
      if startswith s sep
      then [[]; skipn (length sep) s]
      else cons_head c (split1 sep r)
  end.

(** [sep.join(l)] *)
Fixpoint join (sep : str) (l : list str) : str :=
  match l with
  | [] => []
  | [x] => x
  | x :: r => x ++ sep ++ join sep r
  end.

(** [str(n)] for a non-negative integer. *)
Definition str_of_nat (n : nat) : str :=
  list_ascii_of_string (NilEmpty.string_of_uint (Nat.to_uint n)).

End Py.

Import Py.

(** ** Exceptions and results *)

Inductive exn : Type :=
| IndexError
| PipelineError (msg : str)
| HTTPException (status_code : nat) (detail : str).

Inductive res (A : Type) : Type :=
| Ok (a : A)
| Raise (e : exn).

Arguments Ok {A} a.
Arguments Raise {A} e.

Definition bind {A B : Type} (m : res A) (k : A -> res B) : res B :=
  match m with
  | Ok a => k a
  | Raise e => Raise e
  end.

Notation "x <- m ;; k" := (bind m (fun x => k))
  (at level 61, m at next level, right associativity).

(** [l[i]] on a list: raises [IndexError] out of range. *)
Definition index {A : Type} (l : list A) (i : nat) : res A :=
  match nth_error l i with
  | Some a => Ok a
  | None => Raise IndexError
  end.

(** [str(e)] as it appears in the log lines; an [HTTPException] prints as
    its status code, a colon and its detail. *)
Definition exn_text (e : exn) : str :=
  match e with
  | IndexError => lit "list index out of range"
  | PipelineError msg => msg
  | HTTPException status_code detail =>
      str_of_nat status_code ++ lit ": " ++ detail
  end.

(** ** The parser *)

(** [_clean_special_tokens(text)], with the iteration order of the set
    [SPECIAL_TOKENS] given as a list. *)
Definition _clean_special_tokens (SPECIAL_TOKENS : list str) (text : str) : str :=
  let text := replace (lit "<section>") [NL] text in
  let text := replace (lit "<sep>") (lit "--") text in
  let text := fold_left (fun text tok => replace tok [] text) SPECIAL_TOKENS text in
  strip text.

Definition UNTITLED : str := lit "Untitled Recipe".

(** [[l.strip() for l in cleaned.split("\n") if l.strip()]] *)
Definition lines_of (cleaned : str) : list str :=
  map strip (filter (fun l => truthy (strip l)) (split [NL] cleaned)).

(** [line.split(":", 1)[1].strip()] *)
Definition field_value (line : str) : res str :=
  v <- index (split1 (lit ":") line) 1 ;; Ok (strip v).

(** The three variables the scan assigns. *)
Record Fields : Type := mkFields {
  f_title : str;
  f_ingredients_line : str;
  f_directions_line : str
}.

(** One iteration of the [for line in lines] loop. *)
Definition scan_line (st : Fields) (line : str) : res Fields :=
  let low := lower line in
  if startswith low (lit "title:") then
    v <- field_value line ;;
    Ok (mkFields (if truthy v then v else UNTITLED)
                 (f_ingredients_line st) (f_directions_line st))
  else if startswith low (lit "ingredients:") then
    v <- field_value line ;;
    Ok (mkFields (f_title st) v (f_directions_line st))
  else if startswith low (lit "directions:") then
    v <- field_value line ;;
    Ok (mkFields (f_title st) (f_ingredients_line st) v)
  else Ok st.

Fixpoint scan_lines (st : Fields) (lines : list str) : res Fields :=
  match lines with
  | [] => Ok st
  | line :: rest => st' <- scan_line st line ;; scan_lines st' rest
  end.

(** [[s.strip().capitalize() for s in text.split("--") if s.strip()]] *)
Definition items_of (text : str) : list str :=
  map (fun s => capitalize (strip s))
      (filter (fun s => truthy (strip s)) (split (lit "--") text)).

(** [f"{i+1}. {step}" for i, step in enumerate(steps)] *)
Fixpoint numbered (i : nat) (steps : list str) : list str :=
  match steps with
  | [] => []
  | step :: rest => (str_of_nat (i + 1) ++ lit ". " ++ step) :: numbered (S i) rest
  end.

Definition short_desc_of (ingredients_line : str) : str :=
  if truthy ingredients_line then
    let ing_list := items_of ingredients_line in
    match ing_list with
    | [] => []
    | _ :: _ => lit "Ingredients: " ++ join (lit ", ") (firstn 6 ing_list)
    end
  else [].

Definition instructions_of (cleaned directions_line : str) : str :=
  if truthy directions_line then
    let steps := items_of directions_line in
    match steps with
    | [] => cleaned
    | _ :: _ => join [NL] (numbered 0 steps)
    end
  else cleaned.

Definition parse_recipe_output (SPECIAL_TOKENS : list str) (raw_text : str)
  : res (str * str * str) :=
  let cleaned := _clean_special_tokens SPECIAL_TOKENS raw_text in
  let lines := lines_of cleaned in
  match lines with
  | [] => Ok (UNTITLED, [], cleaned)
  | first :: _ =>
      st <- scan_lines (mkFields UNTITLED [] []) lines ;;
      let title := f_title st in
      let title := if str_eqb title UNTITLED then slice_to 80 first else title in
      let short_desc := short_desc_of (f_ingredients_line st) in
      let instructions := instructions_of cleaned (f_directions_line st) in
      Ok (slice_to 80 title, slice_to 200 short_desc, instructions)
  end.

(** ** The service: runtime, world and the request handler *)

Record Recipe : Type := mkRecipe {
  id : str;
  title : str;
  shortDescription : str;
  instructions : str
}.

Record RecipeRequest : Type := mkRecipeRequest { ingredients : list str }.

Record RecipeResponse : Type := mkRecipeResponse { recipes : list Recipe }.

(** One invocation of the pipeline: the prompt and the keyword arguments
    that are not constants of the source ([do_sample=True] and [top_p=0.95]
    are). *)
Record GenCall : Type := mkGenCall {
  prompt : str;
  top_k : nat;
  num_return_sequences : nat;
  max_length : nat
}.

Inductive LogRecord : Type :=
| LogInfo (msg : str)
| LogError (msg : str).

(** What the module loads at import time.  The pipeline samples, so its
    answer may depend on how many calls were made before; an output is a
    dict that may lack the key [generated_text]. *)
Record Runtime : Type := mkRuntime {
  SPECIAL_TOKENS : list str;
  generator : nat -> GenCall -> res (list (option str));
  uuid4 : nat -> str
}.

Record World : Type := mkWorld {
  pipeline_calls : list GenCall;
  uuids_drawn : nat;
  log : list LogRecord
}.

(** State and exception monad of the handler. *)
Definition M (A : Type) : Type := World -> res A * World.

Definition ret {A : Type} (a : A) : M A := fun w => (Ok a, w).

Definition raise {A : Type} (e : exn) : M A := fun w => (Raise e, w).

Definition mbind {A B : Type} (m : M A) (k : A -> M B) : M B :=
  fun w =>
    match m w with
    | (Ok a, w') => k a w'
    | (Raise e, w') => (Raise e, w')
    end.

Notation "'do' x <- m ; k" := (mbind m (fun x => k))
  (at level 10, x name, m at level 100, k at level 200).

Notation "m >> k" := (mbind m (fun _ => k))
  (at level 62, right associativity).

(** [try: m except Exception as e: h e] *)
Definition try_except {A : Type} (m : M A) (h : exn -> M A) : M A :=
  fun w =>
    match m w with
    | (Ok a, w') => (Ok a, w')
    | (Raise e, w') => h e w'
    end.

Definition lift {A : Type} (r : res A) : M A := fun w => (r, w).

Definition logger_info (msg : str) : M unit :=
  fun w => (Ok tt, mkWorld (pipeline_calls w) (uuids_drawn w) (log w ++ [LogInfo msg])).

Definition logger_error (msg : str) : M unit :=
  fun w => (Ok tt, mkWorld (pipeline_calls w) (uuids_drawn w) (log w ++ [LogError msg])).

Definition call_generator (rt : Runtime) (c : GenCall) : M (list (option str)) :=
  fun w =>
    (generator rt (length (pipeline_calls w)) c,
     mkWorld (pipeline_calls w ++ [c]) (uuids_drawn w) (log w)).

Definition draw_uuid4 (rt : Runtime) : M str :=
  fun w =>
    (Ok (uuid4 rt (uuids_drawn w)),
     mkWorld (pipeline_calls w) (S (uuids_drawn w)) (log w)).

(** [o.get("generated_text", "")] *)
Definition get_generated_text (o : option str) : str :=
  match o with
  | Some t => t
  | None => []
  end.

Definition generate_recipe_text (rt : Runtime) (items_str : str)
    (num_recipes max_length : nat) : M (list str) :=
  try_except
    (let prompt := lit "items: " ++ items_str in
     do outputs <- call_generator rt (mkGenCall prompt 60 num_recipes max_length);
     ret (map (fun o => strip (get_generated_text o)) outputs))
    (fun e =>
       logger_error (lit "Error during generation: " ++ exn_text e) >> raise e).

(** A Python dict keeps its keys in insertion order. *)
Definition dict : Type := list (str * Recipe).

Definition dict_contains (key : str) (d : dict) : bool :=
  existsb (fun kv => str_eqb (fst kv) key) d.

(** [d[key] = v]: an existing key keeps its place, a new one goes last. *)
Fixpoint dict_set (key : str) (v : Recipe) (d : dict) : dict :=
  match d with
  | [] => [(key, v)]
  | (k, x) :: rest =>
      if str_eqb k key then (k, v) :: rest else (k, x) :: dict_set key v rest
  end.

Definition dict_values (d : dict) : list Recipe := map snd d.

Definition dict_keys (d : dict) : list str := map fst d.

(** The [for raw in raw_outputs] loop, with its [continue] and [break]. *)
Fixpoint collect_recipes (rt : Runtime) (raw_outputs : list str)
    (recipes_dict : dict) : M dict :=
  match raw_outputs with
  | [] => ret recipes_dict
  | raw :: rest =>
      do parsed <- lift (parse_recipe_output (SPECIAL_TOKENS rt) raw);
      let '(title, short_desc, instructions) := parsed in
      let key := lower title in
      if dict_contains key recipes_dict then
        collect_recipes rt rest recipes_dict
      else
        do uid <- draw_uuid4 rt;
        let recipes_dict :=
          dict_set key (mkRecipe uid title short_desc instructions) recipes_dict in
        if 3 <=? length recipes_dict then ret recipes_dict
        else collect_recipes rt rest recipes_dict
  end.

(** The comprehension that cleans the request's ingredients. *)
Definition clean_ingredients (ings : list str) : list str :=
  map (fun ing => lower (strip ing))
      (filter (fun ing => truthy ing && truthy (strip ing)) ings).

Definition generate_recipes (rt : Runtime) (req : RecipeRequest) : M RecipeResponse :=
  try_except
    (match ingredients req with
     | [] =>
         raise (HTTPException 400
           (lit "No ingredients provided. Please provide at least one ingredient."))
     | _ :: _ =>
         let cleaned := clean_ingredients (ingredients req) in
         match cleaned with
         | [] =>
             raise (HTTPException 400
               (lit "No valid ingredients found after cleaning."))
         | _ :: _ =>
             let items_str := join (lit ", ") cleaned in
             logger_info (lit "Generating recipes for items: " ++ items_str) >>
             do raw_outputs <- generate_recipe_text rt items_str 3 512;
             do recipes_dict <- collect_recipes rt raw_outputs [];
             let recipes_list := dict_values recipes_dict in
             logger_info (lit "Generated " ++ str_of_nat (length recipes_list)
                          ++ lit " recipes") >>
             ret (mkRecipeResponse recipes_list)
         end
     end)
    (fun e =>
       match e with
       | HTTPException _ _ => raise e
       | _ =>
           logger_error (lit "Unexpected error in /generate-recipes: " ++ exn_text e) >>
           raise (HTTPException 500
             (lit "Recipe generation failed. Please try again later."))
       end).

(** ** Specification-side vocabulary *)

(** [line] carries the prefix [p], case-insensitively. *)
Definition has_prefix (p : str) (line : str) : bool :=
  startswith (lower line) p.

(** The last line of [lines] that carries the prefix [p]. *)
Fixpoint last_match (p : str) (lines : list str) : option str :=
  match lines with
  | [] => None
  | l :: rest =>
      match last_match p rest with
      | Some x => Some x
      | None => if has_prefix p l then Some l else None
      end
  end.

(** What follows the prefix [p] on [line], trimmed. *)
Definition remainder (p : str) (line : str) : str :=
  strip (skipn (length p) line).

Definition P_TITLE : str := lit "title:".
Definition P_INGREDIENTS : str := lit "ingredients:".
Definition P_DIRECTIONS : str := lit "directions:".

(** [... or "Untitled Recipe"] on the remainder of a title line. *)
Definition title_value (line : str) : str :=
  if truthy (remainder P_TITLE line) then remainder P_TITLE line else UNTITLED.

(** The value of each field as decided by the last line with its prefix. *)
Definition title_field (lines : list str) : str :=
  match last_match P_TITLE lines with
  | Some l => title_value l
  | None => UNTITLED
  end.

Definition ingredients_field (lines : list str) : str :=
  match last_match P_INGREDIENTS lines with
  | Some l => remainder P_INGREDIENTS l
  | None => []
  end.

Definition directions_field (lines : list str) : str :=
  match last_match P_DIRECTIONS lines with
  | Some l => remainder P_DIRECTIONS l
  | None => []
  end.

(** Keys in order of first appearance, given those seen already. *)
Fixpoint first_seen (seen : list str) (keys : list str) : list str :=
  match keys with
  | [] => []
  | k :: rest =>
      if existsb (fun s => str_eqb s k) seen then first_seen seen rest
      else k :: first_seen (seen ++ [k]) rest
  end.

(** The triple the parser yields for [raw]; the parser never raises (see
    [parse_recipe_output_total]), the default is never used. *)
Definition parsed (toks : list str) (raw : str) : str * str * str :=
  match parse_recipe_output toks raw with
  | Ok t => t
  | Raise _ => ([], [], [])
  end.

Definition key_of (toks : list str) (raw : str) : str :=
  lower (fst (fst (parsed toks raw))).

(** The loop invariant: every key is the lower-cased title of its recipe,
    and no key occurs twice. *)
Definition dict_ok (d : dict) : Prop :=
  Forall (fun kv => fst kv = lower (title (snd kv))) d /\ NoDup (dict_keys d).

(** Where a collected recipe comes from: the first raw output with its
    key, whose parsed triple it carries. *)
Definition from_first (toks : list str) (raws : list str) (k : str) (r : Recipe)
  : Prop :=
  exists pre raw post,
    raws = pre ++ raw :: post /\
    key_of toks raw = k /\
    ~ In k (map (key_of toks) pre) /\
    (title r, shortDescription r, instructions r) = parsed toks raw.

(** *** Vocabulary for the request handler *)

(** The one call the handler makes to the pipeline for a request. *)
Definition call_for (ings : list str) : GenCall :=
  mkGenCall (lit "items: " ++ join (lit ", ") (clean_ingredients ings)) 60 3 512.

(** The world once the handler has announced the generation and called the
    pipeline. *)
Definition world_after_call (ings : list str) (w : World) : World :=
  mkWorld (pipeline_calls w ++ [call_for ings]) (uuids_drawn w)
          (log w ++ [LogInfo (lit "Generating recipes for items: "
                              ++ join (lit ", ") (clean_ingredients ings))]).

Definition add_log (l : LogRecord) (w : World) : World :=
  mkWorld (pipeline_calls w) (uuids_drawn w) (log w ++ [l]).

Definition GENERIC_FAILURE : str :=
  lit "Recipe generation failed. Please try again later.".

(** *** Vocabulary for the order of token removal *)

Definition LT : ascii := "<"%char.
Definition GT : ascii := ">"%char.

Definition is_bracket (c : ascii) : bool := Ascii.eqb c LT || Ascii.eqb c GT.

Definition bracket_free (s : str) : bool :=
  forallb (fun c => negb (is_bracket c)) s.

(** The token "<body>". *)
Definition wrap (body : str) : str := LT :: body ++ [GT].

(** What stands between the first and the last character of a token. *)
Definition body_of (tok : str) : str := removelast (tl tok).

(** A token of the shape "<body>" whose body has no angle bracket, as
    "<pad>", "</s>", "<unk>" and "<extra_id_0>" are. *)
Definition bracket_token (tok : str) : bool :=
  str_eqb tok (wrap (body_of tok)) && bracket_free (body_of tok).

(** Text in which angle brackets alternate: every "<" is closed by a ">"
    before the next "<", and no ">" comes unopened. *)
Fixpoint well_bracketed_from (inside : bool) (s : str) : bool :=
  match s with
  | [] => negb inside
  | c :: r =>
      if Ascii.eqb c LT then negb inside && well_bracketed_from true r
      else if Ascii.eqb c GT then inside && well_bracketed_from false r
      else well_bracketed_from inside r
  end.

Definition well_bracketed (s : str) : bool := well_bracketed_from false s.

(** [t] occurs in [s]. *)
Fixpoint occurs (t s : str) : bool :=
  startswith s t || match s with [] => false | _ :: r => occurs t r end.

(** Some non-empty suffix of [s] is a prefix of [t]. *)
Fixpoint suffix_prefix (s t : str) : bool :=
  match s with
  | [] => false
  | _ :: r => startswith t s || suffix_prefix r t
  end.

(** Two tokens overlap when a proper, non-empty suffix of the first
    begins the second, or the first occurs inside a different second. *)
Definition overlap (s t : str) : bool :=
  suffix_prefix (tl s) t || (negb (str_eqb s t) && occurs s t).

Definition tokens_disjoint (toks : list str) : bool :=
  forallb (fun s => forallb (fun t => negb (overlap s t)) toks) toks.

(** Well-bracketed text seen as a sequence of plain characters and of
    groups "<body>". *)
Inductive segment : Type :=
| Plain (c : ascii)
| Group (body : str).

Definition render_segment (sg : segment) : str :=
  match sg with
  | Plain c => [c]
  | Group b => wrap b
  end.

Definition render (segs : list segment) : str := flat_map render_segment segs.

Definition segment_ok (sg : segment) : Prop :=
  match sg with
  | Plain c => is_bracket c = false
  | Group b => bracket_free b = true
  end.

(** Every group "<b>" replaced by the plain text [new]. *)
Definition subst_group (b new : str) (segs : list segment) : list segment :=
  flat_map (fun sg =>
              match sg with
              | Plain _ => [sg]
              | Group g => if str_eqb g b then map Plain new else [sg]
              end) segs.

(** The groups whose body is in [bs] dropped. *)
Definition drop_groups (bs : list str) (segs : list segment) : list segment :=
  filter (fun sg =>
            match sg with
            | Plain _ => true
            | Group g => negb (existsb (str_eqb g) bs)
            end) segs.

(** Special tokens of a T5 tokenizer, used in the examples. *)
Definition T5_TOKENS : list str := [lit "</s>"; lit "<unk>"; lit "<pad>"].

(** A runtime for the examples: the pipeline answers every call with the
    same three candidates, UUIDs are numbered. *)
Definition demo_outputs : list (option str) :=
  [Some (lit "title: Soup<section>directions: boil <sep> serve</s>");
   Some (lit " title: soup<section>directions: simmer");
   Some (lit "title: Salad<section>ingredients: leaf <sep> oil")].

Definition demo_runtime : Runtime :=
  mkRuntime T5_TOKENS (fun _ _ => Ok demo_outputs) str_of_nat.

Definition fresh_world : World := mkWorld [] 0 [].

(** A runtime whose pipeline raises an HTTP exception of its own. *)
Definition busy_runtime : Runtime :=
  mkRuntime T5_TOKENS (fun _ _ => Raise (HTTPException 503 (lit "busy")))
            str_of_nat.

(** A runtime whose pipeline always raises. *)
Definition failing_runtime : Runtime :=
  mkRuntime T5_TOKENS (fun _ _ => Raise (PipelineError (lit "out of memory")))
            str_of_nat.

(** [raw] has the line [l] among its newline-separated lines. *)
Definition contains_line (raw l : str) : Prop := In l (split [NL] raw).

(** ** Characters *)

Ltac ascii_cases c :=
  destruct c as [[] [] [] [] [] [] [] []].

Lemma str_eqb_eq (a b : str) : str_eqb a b = true <-> a = b.
Proof.
  revert b; induction a as [|c a IH]; intros [|d b]; simpl;
    try (split; [discriminate | discriminate]); try tauto.
  rewrite andb_true_iff, Ascii.eqb_eq, IH.
  split; [intros [-> ->]; reflexivity | intros H; inversion H; auto].
Qed.

Lemma str_eqb_refl (a : str) : str_eqb a a = true.
Proof. apply str_eqb_eq; reflexivity. Qed.

Lemma lower_char_idem (c : ascii) : lower_char (lower_char c) = lower_char c.
Proof. ascii_cases c; reflexivity. Qed.

Lemma isspace_lower_char (c : ascii) : isspace (lower_char c) = isspace c.
Proof. ascii_cases c; reflexivity. Qed.

Lemma lower_char_colon (c : ascii) :
  Ascii.eqb ":" (lower_char c) = true -> c = ":"%char.
Proof. ascii_cases c; vm_compute; intros H; try discriminate H; reflexivity. Qed.

Lemma truthy_true (s : str) : truthy s = true <-> s <> [].
Proof. destruct s; simpl; split; congruence. Qed.

(** ** The field after the colon *)

Lemma split1_after_prefix (p line : str) :
  Forall (fun a => a <> ":"%char) p ->
  startswith (lower line) (p ++ lit ":") = true ->
  split1 (lit ":") line = [firstn (length p) line; skipn (S (length p)) line].
Proof.
  intros Hp; revert line; induction Hp as [|a p Ha Hp IH]; intros [|c r] H;
    simpl in H; try discriminate H.
  - apply andb_true_iff in H as [H _]. apply lower_char_colon in H; subst c.
    reflexivity.
  - apply andb_true_iff in H as [Hc H].
    apply Ascii.eqb_eq in Hc.
    assert (Hne : Ascii.eqb ":" c = false).
    { apply Ascii.eqb_neq; intros <-. apply Ha. rewrite Hc. reflexivity. }
    change (split1 (lit ":") (c :: r))
      with (if Ascii.eqb ":" c && true then [[]; skipn 1 (c :: r)]
            else cons_head c (split1 (lit ":") r)).
    rewrite Hne; cbn [andb]. rewrite (IH r H). reflexivity.
Qed.

Lemma no_colon_letters (s : string) :
  forallb (fun a => negb (Ascii.eqb a ":")) (lit s) = true ->
  Forall (fun a => a <> ":"%char) (lit s).
Proof.
  intros H. apply Forall_forall; intros a Ha.
  rewrite forallb_forall in H. specialize (H a Ha).
  apply negb_true_iff, Ascii.eqb_neq in H. exact H.
Qed.

Lemma field_value_title (line : str) :
  has_prefix P_TITLE line = true ->
  field_value line = Ok (remainder P_TITLE line).
Proof.
  intros H. unfold field_value.
  rewrite (split1_after_prefix (lit "title") line);
    [reflexivity | apply no_colon_letters; reflexivity | exact H].
Qed.

Lemma field_value_ingredients (line : str) :
  has_prefix P_INGREDIENTS line = true ->
  field_value line = Ok (remainder P_INGREDIENTS line).
Proof.
  intros H. unfold field_value.
  rewrite (split1_after_prefix (lit "ingredients") line);
    [reflexivity | apply no_colon_letters; reflexivity | exact H].
Qed.

Lemma field_value_directions (line : str) :
  has_prefix P_DIRECTIONS line = true ->
  field_value line = Ok (remainder P_DIRECTIONS line).
Proof.
  intros H. unfold field_value.
  rewrite (split1_after_prefix (lit "directions") line);
    [reflexivity | apply no_colon_letters; reflexivity | exact H].
Qed.

(** ** The scan over the lines *)

Lemma prefix_first_char (p line : str) (a : ascii) :
  has_prefix (a :: p) line = true -> exists r, lower line = a :: r.
Proof.
  unfold has_prefix. destruct (lower line) as [|c r]; simpl; [discriminate|].
  intros H. apply andb_true_iff in H as [H _]. apply Ascii.eqb_eq in H.
  subst c. eauto.
Qed.

Lemma title_not_ingredients (line : str) :
  has_prefix P_TITLE line = true -> has_prefix P_INGREDIENTS line = false.
Proof.
  intros H. destruct (prefix_first_char _ _ _ H) as [r E].
  unfold has_prefix. rewrite E. reflexivity.
Qed.

Lemma title_not_directions (line : str) :
  has_prefix P_TITLE line = true -> has_prefix P_DIRECTIONS line = false.
Proof.
  intros H. destruct (prefix_first_char _ _ _ H) as [r E].
  unfold has_prefix. rewrite E. reflexivity.
Qed.

Lemma ingredients_not_directions (line : str) :
  has_prefix P_INGREDIENTS line = true -> has_prefix P_DIRECTIONS line = false.
Proof.
  intros H. destruct (prefix_first_char _ _ _ H) as [r E].
  unfold has_prefix. rewrite E. reflexivity.
Qed.

Lemma scan_line_spec (st : Fields) (line : str) :
  scan_line st line =
  Ok (mkFields
        (if has_prefix P_TITLE line then title_value line else f_title st)
        (if has_prefix P_INGREDIENTS line then remainder P_INGREDIENTS line
         else f_ingredients_line st)
        (if has_prefix P_DIRECTIONS line then remainder P_DIRECTIONS line
         else f_directions_line st)).
Proof.
  unfold scan_line.
  change (startswith (lower line) (lit "title:")) with (has_prefix P_TITLE line).
  change (startswith (lower line) (lit "ingredients:"))
    with (has_prefix P_INGREDIENTS line).
  change (startswith (lower line) (lit "directions:"))
    with (has_prefix P_DIRECTIONS line).
  destruct (has_prefix P_TITLE line) eqn:Ht.
  - rewrite (field_value_title _ Ht), (title_not_ingredients _ Ht),
      (title_not_directions _ Ht). reflexivity.
  - destruct (has_prefix P_INGREDIENTS line) eqn:Hi.
    + rewrite (field_value_ingredients _ Hi), (ingredients_not_directions _ Hi).
      reflexivity.
    + destruct (has_prefix P_DIRECTIONS line) eqn:Hd.
      * rewrite (field_value_directions _ Hd). reflexivity.
      * destruct st; reflexivity.
Qed.

Lemma scan_lines_spec (lines : list str) (st : Fields) :
  scan_lines st lines =
  Ok (mkFields
        (match last_match P_TITLE lines with
         | Some l => title_value l
         | None => f_title st
         end)
        (match last_match P_INGREDIENTS lines with
         | Some l => remainder P_INGREDIENTS l
         | None => f_ingredients_line st
         end)
        (match last_match P_DIRECTIONS lines with
         | Some l => remainder P_DIRECTIONS l
         | None => f_directions_line st
         end)).
Proof.
  revert st; induction lines as [|l rest IH]; intros st.
  - destruct st; reflexivity.
  - cbn [scan_lines last_match]. rewrite scan_line_spec. cbn [bind].
    rewrite IH. cbn [f_title f_ingredients_line f_directions_line].
    destruct (last_match P_TITLE rest), (last_match P_INGREDIENTS rest),
      (last_match P_DIRECTIONS rest),
      (has_prefix P_TITLE l), (has_prefix P_INGREDIENTS l),
      (has_prefix P_DIRECTIONS l); reflexivity.
Qed.

(** The parser in closed form: it never raises, and each field is settled
    by the last line that carries its prefix. *)
Lemma parse_recipe_output_spec (toks : list str) (raw : str) :
  parse_recipe_output toks raw =
  let cleaned := _clean_special_tokens toks raw in
  let lines := lines_of cleaned in
  Ok (match lines with
      | [] => (UNTITLED, [], cleaned)
      | first :: _ =>
          (slice_to 80 (if str_eqb (title_field lines) UNTITLED
                        then slice_to 80 first else title_field lines),
           slice_to 200 (short_desc_of (ingredients_field lines)),
           instructions_of cleaned (directions_field lines))
      end).
Proof.
  unfold parse_recipe_output. cbv zeta.
  destruct (lines_of (_clean_special_tokens toks raw)) as [|first rest] eqn:E;
    [reflexivity|].
  rewrite scan_lines_spec. reflexivity.
Qed.

Lemma parse_recipe_output_total (toks : list str) (raw : str) :
  parse_recipe_output toks raw = Ok (parsed toks raw).
Proof.
  unfold parsed. rewrite parse_recipe_output_spec. reflexivity.
Qed.

Lemma lines_of_nonempty (cleaned : str) :
  Forall (fun l => l <> []) (lines_of cleaned).
Proof.
  unfold lines_of. apply Forall_forall. intros l Hl.
  apply in_map_iff in Hl as [x [<- Hx]].
  apply filter_In in Hx as [_ Hx]. apply truthy_true. exact Hx.
Qed.

Lemma slice_to_length (n : nat) (s : str) : length (slice_to n s) <= n.
Proof. unfold slice_to. rewrite length_firstn. lia. Qed.

Lemma slice_to_idem (n : nat) (s : str) : slice_to n (slice_to n s) = slice_to n s.
Proof. unfold slice_to. rewrite firstn_firstn. f_equal. lia. Qed.

Lemma slice_to_nonempty (n : nat) (s : str) :
  s <> [] -> slice_to (S n) s <> [].
Proof. destruct s; simpl; congruence. Qed.

Lemma last_match_app (p : str) (a b : list str) :
  last_match p (a ++ b) =
  match last_match p b with
  | Some x => Some x
  | None => last_match p a
  end.
Proof.
  induction a as [|l a IH]; simpl.
  - destruct (last_match p b); reflexivity.
  - rewrite IH. destruct (last_match p b); reflexivity.
Qed.

Lemma last_match_some_cons (p : str) (lines : list str) (l : str) :
  last_match p lines = Some l -> exists first rest, lines = first :: rest.
Proof. destruct lines; simpl; [discriminate | eauto]. Qed.

(** ** The parser: examples and bounds *)

(** C1 (as stated it fails): a later line with the same prefix wins, so
    containing the three lines is not enough. *)
Lemma parse_three_lines_counterexample :
  let raw := lit "title: X" ++ NL :: lit "ingredients: A -- B" ++ NL ::
             lit "directions: step1 -- step2" ++ NL :: lit "title: Y" in
  contains_line raw (lit "title: X") /\
  contains_line raw (lit "ingredients: A -- B") /\
  contains_line raw (lit "directions: step1 -- step2") /\
  parse_recipe_output T5_TOKENS raw =
    Ok (lit "Y", lit "Ingredients: A, B", lit "1. Step1" ++ NL :: lit "2. Step2") /\
  parse_recipe_output T5_TOKENS raw <>
    Ok (lit "X", lit "Ingredients: A, B", lit "1. Step1" ++ NL :: lit "2. Step2").
Proof.
  cbv zeta. unfold contains_line.
  repeat split; try (vm_compute; tauto).
  vm_compute. discriminate.
Qed.

(** C1 (amended): for every raw string whose cleaned lines have
    "title: X", "ingredients: A -- B" and "directions: step1 -- step2" as
    the last line carrying the respective prefix, the parser returns the
    title "X", the description "Ingredients: A, B" and the instructions
    "1. Step1\n2. Step2". *)
Theorem parse_three_lines (toks : list str) (raw : str) :
  let lines := lines_of (_clean_special_tokens toks raw) in
  last_match P_TITLE lines = Some (lit "title: X") ->
  last_match P_INGREDIENTS lines = Some (lit "ingredients: A -- B") ->
  last_match P_DIRECTIONS lines = Some (lit "directions: step1 -- step2") ->
  parse_recipe_output toks raw =
    Ok (lit "X", lit "Ingredients: A, B", lit "1. Step1" ++ NL :: lit "2. Step2").
Proof.
  cbv zeta. intros Ht Hi Hd.
  rewrite parse_recipe_output_spec. cbv zeta.
  destruct (last_match_some_cons _ _ _ Ht) as [first [rest E]].
  rewrite E in *. unfold title_field, ingredients_field, directions_field.
  rewrite Ht, Hi, Hd. reflexivity.
Qed.

Lemma parse_three_lines_witness :
  parse_recipe_output T5_TOKENS
    (lit "title: X<section>ingredients: A <sep> B<section>directions: step1 <sep> step2</s>") =
    Ok (lit "X", lit "Ingredients: A, B", lit "1. Step1" ++ NL :: lit "2. Step2").
Proof.
  apply (parse_three_lines T5_TOKENS); reflexivity.
Defined.

(** C2: the scan keeps, for each of the three prefixes, the remainder of
    the last line that carries it; with two "directions:" lines the
    instructions are built from the remainder of the last one. *)
Theorem scan_last_match_wins :
  (forall (st : Fields) (lines : list str),
     scan_lines st lines =
     Ok (mkFields
           (match last_match P_TITLE lines with
            | Some l => title_value l
            | None => f_title st
            end)
           (match last_match P_INGREDIENTS lines with
            | Some l => remainder P_INGREDIENTS l
            | None => f_ingredients_line st
            end)
           (match last_match P_DIRECTIONS lines with
            | Some l => remainder P_DIRECTIONS l
            | None => f_directions_line st
            end))) /\
  (forall (toks : list str) (raw : str) (a b c : list str) (d1 d2 : str),
     lines_of (_clean_special_tokens toks raw) = a ++ d1 :: b ++ d2 :: c ->
     has_prefix P_DIRECTIONS d1 = true ->
     has_prefix P_DIRECTIONS d2 = true ->
     last_match P_DIRECTIONS c = None ->
     exists t s,
       parse_recipe_output toks raw =
       Ok (t, s, instructions_of (_clean_special_tokens toks raw)
                   (remainder P_DIRECTIONS d2))).
Proof.
  split.
  - intros st lines. apply scan_lines_spec.
  - intros toks raw a b c d1 d2 E H1 H2 Hc.
    rewrite parse_recipe_output_spec. cbv zeta.
    assert (Hl : last_match P_DIRECTIONS (a ++ d1 :: b ++ d2 :: c) = Some d2).
    { rewrite last_match_app. cbn [last_match].
      rewrite last_match_app. cbn [last_match]. rewrite Hc, H2. reflexivity. }
    rewrite E. unfold directions_field. rewrite Hl.
    destruct (a ++ d1 :: b ++ d2 :: c) as [|first rest] eqn:E';
      [destruct a; discriminate E'|].
    do 2 eexists; reflexivity.
Qed.

Lemma scan_last_match_wins_witness :
  exists t s,
    parse_recipe_output T5_TOKENS
      (lit "title: Soup" ++ NL :: lit "directions: boil" ++ NL ::
       lit "Directions: chop -- fry") =
    Ok (t, s, lit "1. Chop" ++ NL :: lit "2. Fry").
Proof.
  exact (proj2 scan_last_match_wins T5_TOKENS
           (lit "title: Soup" ++ NL :: lit "directions: boil" ++ NL ::
            lit "Directions: chop -- fry")
           [lit "title: Soup"] [] [] (lit "directions: boil")
           (lit "Directions: chop -- fry")
           eq_refl eq_refl eq_refl eq_refl).
Defined.

(** C3: for every input the parser returns a triple whose title has at
    most 80 characters and whose description has at most 200. *)
Theorem parse_lengths_bounded (toks : list str) (raw : str) :
  exists t d i,
    parse_recipe_output toks raw = Ok (t, d, i) /\
    length t <= 80 /\ length d <= 200.
Proof.
  rewrite parse_recipe_output_spec. cbv zeta.
  destruct (lines_of (_clean_special_tokens toks raw)) as [|first rest].
  - do 3 eexists. split; [reflexivity|]. split; simpl; lia.
  - do 3 eexists. split; [reflexivity|]. split; apply slice_to_length.
Qed.

(** ** The title *)

Lemma parsed_title_cases (toks : list str) (raw : str) :
  exists t d i,
    parse_recipe_output toks raw = Ok (t, d, i) /\
    match lines_of (_clean_special_tokens toks raw) with
    | [] => t = UNTITLED
    | first :: rest =>
        t = slice_to 80
              (if str_eqb (title_field (first :: rest)) UNTITLED
               then slice_to 80 first else title_field (first :: rest))
    end.
Proof.
  rewrite parse_recipe_output_spec. cbv zeta.
  destruct (lines_of (_clean_special_tokens toks raw)) as [|first rest];
    do 3 eexists; split; reflexivity.
Qed.

(** C9: the code at the input "title: Untitled Recipe".  The line carries
    the title marker and its remainder "Untitled Recipe" is non-empty, so
    the title should be that remainder; the code takes the remainder for
    its own sentinel, falls back as if no marker had been found, and
    returns the whole first line, marker included. *)
Lemma title_sentinel_collision :
  let raw := lit "title: Untitled Recipe" in
  lines_of (_clean_special_tokens T5_TOKENS raw) = [lit "title: Untitled Recipe"] /\
  has_prefix P_TITLE (lit "title: Untitled Recipe") = true /\
  remainder P_TITLE (lit "title: Untitled Recipe") = lit "Untitled Recipe" /\
  parse_recipe_output T5_TOKENS raw =
    Ok (lit "title: Untitled Recipe", [], lit "title: Untitled Recipe") /\
  lit "title: Untitled Recipe" <> remainder P_TITLE (lit "title: Untitled Recipe").
Proof. cbv zeta. repeat split. discriminate. Qed.

(** C10: the fallback to the first line is triggered by the sentinel.  When
    the last title line has an empty remainder, or the remainder
    "Untitled Recipe", the title is the first non-empty line cut to 80
    characters; so with "title: Untitled Recipe" as first line and no later
    title line the title is "title: Untitled Recipe", prefix included. *)
Theorem title_sentinel_fallback :
  (forall (toks : list str) (raw : str) (first l : str) (rest : list str),
     lines_of (_clean_special_tokens toks raw) = first :: rest ->
     last_match P_TITLE (first :: rest) = Some l ->
     remainder P_TITLE l = [] \/ remainder P_TITLE l = UNTITLED ->
     exists d i, parse_recipe_output toks raw = Ok (slice_to 80 first, d, i)) /\
  (forall (toks : list str) (raw : str) (rest : list str),
     lines_of (_clean_special_tokens toks raw) =
       lit "title: Untitled Recipe" :: rest ->
     last_match P_TITLE rest = None ->
     exists d i,
       parse_recipe_output toks raw = Ok (lit "title: Untitled Recipe", d, i)).
Proof.
  assert (G : forall toks raw first l rest,
     lines_of (_clean_special_tokens toks raw) = first :: rest ->
     last_match P_TITLE (first :: rest) = Some l ->
     remainder P_TITLE l = [] \/ remainder P_TITLE l = UNTITLED ->
     exists d i, parse_recipe_output toks raw = Ok (slice_to 80 first, d, i)).
  { intros toks raw first l rest E Hl Hr.
    destruct (parsed_title_cases toks raw) as [t [d [i [Ep H]]]].
    rewrite E in H. exists d, i. rewrite Ep. do 3 f_equal.
    subst t. unfold title_field, title_value. rewrite Hl.
    destruct Hr as [Hr|Hr]; rewrite Hr; cbn [truthy];
      rewrite ?str_eqb_refl; [|change (truthy UNTITLED) with true; cbv iota];
      rewrite ?str_eqb_refl; apply slice_to_idem. }
  split; [exact G|].
  intros toks raw rest E Hn.
  apply (G toks raw (lit "title: Untitled Recipe")
           (lit "title: Untitled Recipe") rest E).
  - cbn [last_match]. rewrite Hn. reflexivity.
  - right. reflexivity.
Qed.

Lemma title_sentinel_fallback_witness :
  (exists d i,
     parse_recipe_output T5_TOKENS (lit "Pasta bake" ++ NL :: lit "TITLE:") =
     Ok (lit "Pasta bake", d, i)) /\
  (exists d i,
     parse_recipe_output T5_TOKENS (lit "title: Untitled Recipe") =
     Ok (lit "title: Untitled Recipe", d, i)).
Proof.
  split.
  - exact (proj1 title_sentinel_fallback T5_TOKENS
             (lit "Pasta bake" ++ NL :: lit "TITLE:")
             (lit "Pasta bake") (lit "TITLE:") [lit "TITLE:"]
             eq_refl eq_refl (or_introl eq_refl)).
  - exact (proj2 title_sentinel_fallback T5_TOKENS
             (lit "title: Untitled Recipe") [] eq_refl eq_refl).
Defined.

(** ** Trimming and lower-casing *)

Lemma lstrip_idem (s : str) : lstrip (lstrip s) = lstrip s.
Proof.
  induction s as [|c r IH]; simpl; [reflexivity|].
  destruct (isspace c) eqn:E; [exact IH|]. simpl. rewrite E. reflexivity.
Qed.

Lemma lstrip_head (s : str) :
  lstrip s = [] \/ exists c r, lstrip s = c :: r /\ isspace c = false.
Proof.
  induction s as [|c r IH]; simpl; [left; reflexivity|].
  destruct (isspace c) eqn:E; [exact IH|]. right; eauto.
Qed.

Lemma lstrip_snoc (a : str) (c : ascii) :
  isspace c = false -> exists u, lstrip (a ++ [c]) = u ++ [c].
Proof.
  intros Hc. induction a as [|x a IH]; simpl.
  - rewrite Hc. exists []. reflexivity.
  - destruct (isspace x); [exact IH|]. exists (x :: a). reflexivity.
Qed.

Lemma rstrip_idem (s : str) : rstrip (rstrip s) = rstrip s.
Proof. unfold rstrip. rewrite rev_involutive, lstrip_idem. reflexivity. Qed.

Lemma lstrip_rstrip_lstrip (s : str) :
  lstrip (rstrip (lstrip s)) = rstrip (lstrip s).
Proof.
  destruct (lstrip_head s) as [E | [c [r [E Hc]]]]; rewrite E; [reflexivity|].
  unfold rstrip. simpl rev.
  destruct (lstrip_snoc (rev r) c Hc) as [u Eu]. rewrite Eu.
  rewrite rev_app_distr. simpl. rewrite Hc. reflexivity.
Qed.

Lemma strip_idem (s : str) : strip (strip s) = strip s.
Proof.
  unfold strip. rewrite lstrip_rstrip_lstrip. apply rstrip_idem.
Qed.

Lemma lstrip_lower (s : str) : lstrip (lower s) = lower (lstrip s).
Proof.
  induction s as [|c r IH]; simpl; [reflexivity|].
  rewrite isspace_lower_char. destruct (isspace c); [exact IH | reflexivity].
Qed.

Lemma strip_lower (s : str) : strip (lower s) = lower (strip s).
Proof.
  unfold strip, rstrip. rewrite lstrip_lower.
  unfold lower at 1. rewrite <- map_rev. fold (lower (rev (lstrip s))).
  rewrite lstrip_lower. unfold lower. rewrite map_rev. reflexivity.
Qed.

Lemma lower_idem (s : str) : lower (lower s) = lower s.
Proof.
  unfold lower. rewrite map_map. apply map_ext. apply lower_char_idem.
Qed.

Lemma lower_nil_iff (s : str) : lower s = [] <-> s = [].
Proof. destruct s; simpl; split; congruence. Qed.

(** ** The request handler *)

Lemma clean_ingredients_filter (ings : list str) :
  clean_ingredients ings =
  map (fun ing => lower (strip ing)) (filter (fun ing => truthy (strip ing)) ings).
Proof.
  unfold clean_ingredients. f_equal. apply filter_ext.
  intros [|c r]; reflexivity.
Qed.

Lemma clean_ingredients_blank (ings : list str) :
  Forall (fun ing => strip ing = []) ings -> clean_ingredients ings = [].
Proof.
  intros H. rewrite clean_ingredients_filter.
  induction H as [|ing ings Hi _ IH]; simpl; [reflexivity|].
  rewrite Hi. simpl. exact IH.
Qed.

(** C6: a request whose ingredient list is empty, or whose entries are all
    empty after trimming, is answered with status 400 and leaves the world
    as it was: no call to the pipeline, no log line, no UUID drawn. *)
Theorem blank_request_rejected (rt : Runtime) (req : RecipeRequest) (w : World) :
  ingredients req = [] \/ Forall (fun ing => strip ing = []) (ingredients req) ->
  exists detail,
    generate_recipes rt req w = (Raise (HTTPException 400 detail), w).
Proof.
  intros H. unfold generate_recipes, try_except.
  destruct (ingredients req) as [|ing ings] eqn:E.
  - eexists; reflexivity.
  - destruct H as [H|H]; [discriminate H|].
    rewrite (clean_ingredients_blank _ H). eexists; reflexivity.
Qed.

Lemma blank_request_rejected_witness :
  exists detail,
    generate_recipes demo_runtime (mkRecipeRequest [lit "  "; []; [NL]]) fresh_world =
    (Raise (HTTPException 400 detail), fresh_world).
Proof.
  apply (blank_request_rejected demo_runtime
           (mkRecipeRequest [lit "  "; []; [NL]]) fresh_world).
  right. repeat constructor.
Defined.

Lemma collect_recipes_calls (rt : Runtime) (raws : list str) :
  forall (d : dict) (w : World),
    pipeline_calls (snd (collect_recipes rt raws d w)) = pipeline_calls w.
Proof.
  induction raws as [|raw rest IH]; intros d w; [reflexivity|].
  cbn [collect_recipes]. unfold mbind, lift.
  rewrite parse_recipe_output_total.
  destruct (parsed (SPECIAL_TOKENS rt) raw) as [[t s] i].
  destruct (dict_contains (lower t) d); [apply IH|].
  unfold draw_uuid4.
  destruct (3 <=? length _); [reflexivity|].
  rewrite IH. reflexivity.
Qed.

(** C7 (as stated it fails): entries are not deduplicated. *)
Lemma clean_ingredients_keeps_duplicates :
  clean_ingredients [lit "Tomato"; lit " tomato "] = [lit "tomato"; lit "tomato"] /\
  ~ NoDup (clean_ingredients [lit "Tomato"; lit " tomato "]).
Proof.
  split; [reflexivity|].
  intros H. inversion H as [|x l Hx _]; subst. apply Hx. left; reflexivity.
Qed.

(** C7 (amended): normalization trims, lower-cases and drops the entries
    that are empty after trimming, keeping order and duplicates; every
    normalized entry is non-empty, trimmed and lower-case; when one
    remains, the pipeline is called once, with the prompt "items: "
    followed by the normalized entries joined with ", ".  The input
    ["Tomato", "  ", "cheese"] normalizes to ["tomato", "cheese"] and gives
    the prompt "items: tomato, cheese". *)
Theorem normalization_and_prompt :
  (forall ings : list str,
     clean_ingredients ings =
     map lower (map strip (filter (fun ing => negb (str_eqb (strip ing) [])) ings))) /\
  (forall ings : list str,
     Forall (fun e => e <> [] /\ strip e = e /\ lower e = e)
            (clean_ingredients ings)) /\
  (forall (rt : Runtime) (ings : list str) (w : World),
     clean_ingredients ings <> [] ->
     pipeline_calls (snd (generate_recipes rt (mkRecipeRequest ings) w)) =
     pipeline_calls w ++
       [mkGenCall (lit "items: " ++ join (lit ", ") (clean_ingredients ings))
                  60 3 512]) /\
  clean_ingredients [lit "Tomato"; lit "  "; lit "cheese"] =
    [lit "tomato"; lit "cheese"] /\
  lit "items: " ++ join (lit ", ") [lit "tomato"; lit "cheese"] =
    lit "items: tomato, cheese".
Proof.
  split; [|split; [|split; [|split; reflexivity]]].
  - intros ings. rewrite clean_ingredients_filter, map_map. f_equal.
    apply filter_ext. intros ing. destruct (strip ing); reflexivity.
  - intros ings. rewrite clean_ingredients_filter.
    apply Forall_forall. intros e He.
    apply in_map_iff in He as [ing [<- Hi]].
    apply filter_In in Hi as [_ Hi]. apply truthy_true in Hi.
    split; [|split].
    + intros E. apply (proj1 (lower_nil_iff _)) in E. contradiction.
    + rewrite strip_lower, strip_idem. reflexivity.
    + apply lower_idem.
  - intros rt ings w Hne.
    unfold generate_recipes, try_except. cbn [ingredients].
    destruct ings as [|ing ings]; [contradiction Hne; reflexivity|].
    destruct (clean_ingredients (ing :: ings)) as [|e es] eqn:E;
      [contradiction Hne; reflexivity|].
    unfold mbind at 1. unfold logger_info at 1. cbv iota.
    unfold mbind at 1. unfold generate_recipe_text, try_except.
    unfold mbind at 1. unfold call_generator. cbn [pipeline_calls uuids_drawn log].
    destruct (generator rt _ _) as [outputs|e0].
    + unfold ret at 1. cbv iota beta. unfold mbind at 1.
      match goal with
      | |- context [collect_recipes rt ?raws [] ?w0] =>
          pose proof (collect_recipes_calls rt raws [] w0) as Hc;
          destruct (collect_recipes rt raws [] w0) as [[d|e1] w1]
      end; simpl in Hc; destruct w1 as [calls n lg]; simpl in Hc; subst calls.
      * reflexivity.
      * destruct e1; reflexivity.
    + destruct e0; reflexivity.
Qed.

Lemma normalization_and_prompt_witness :
  pipeline_calls
    (snd (generate_recipes demo_runtime
            (mkRecipeRequest [lit "Tomato"; lit "  "; lit "cheese"]) fresh_world)) =
  [mkGenCall (lit "items: tomato, cheese") 60 3 512].
Proof.
  apply (proj1 (proj2 (proj2 normalization_and_prompt)) demo_runtime
           [lit "Tomato"; lit "  "; lit "cheese"] fresh_world).
  discriminate.
Defined.

(** ** The collector *)

Lemma dict_contains_keys (key : str) (d : dict) :
  dict_contains key d = existsb (fun s => str_eqb s key) (dict_keys d).
Proof.
  unfold dict_contains, dict_keys. induction d as [|kv d IH]; simpl;
    [reflexivity | rewrite IH; reflexivity].
Qed.

Lemma dict_contains_false (key : str) (d : dict) :
  dict_contains key d = false -> ~ In key (dict_keys d).
Proof.
  rewrite dict_contains_keys. intros H Hin.
  assert (existsb (fun s => str_eqb s key) (dict_keys d) = true) as Ht.
  { apply existsb_exists. exists key. split; [exact Hin | apply str_eqb_refl]. }
  congruence.
Qed.

Lemma dict_set_new (key : str) (v : Recipe) (d : dict) :
  dict_contains key d = false -> dict_set key v d = d ++ [(key, v)].
Proof.
  unfold dict_contains. induction d as [|[k x] d IH]; simpl; [reflexivity|].
  intros H. apply orb_false_iff in H as [Hk Hd].
  rewrite Hk, (IH Hd). reflexivity.
Qed.

Lemma dict_ok_snoc (d : dict) (uid t s i : str) :
  dict_ok d -> dict_contains (lower t) d = false ->
  dict_ok (d ++ [(lower t, mkRecipe uid t s i)]).
Proof.
  intros [Hf Hn] Hc. split.
  - apply Forall_app. split; [exact Hf | repeat constructor].
  - unfold dict_keys in *. rewrite map_app. simpl.
    apply (Permutation_NoDup (l := lower t :: map fst d)).
    + apply Permutation_cons_append.
    + constructor; [apply dict_contains_false; exact Hc | exact Hn].
Qed.

Lemma collect_recipes_spec (rt : Runtime) (raws : list str) :
  forall (d : dict) (w : World),
    dict_ok d -> length d < 3 ->
    exists d' w',
      collect_recipes rt raws d w = (Ok d', w') /\
      dict_ok d' /\ length d' <= 3 /\
      dict_keys d' =
        dict_keys d ++
        firstn (3 - length d)
               (first_seen (dict_keys d) (map (key_of (SPECIAL_TOKENS rt)) raws)).
Proof.
  induction raws as [|raw rest IH]; intros d w Hok Hlen.
  - exists d, w. cbn. rewrite firstn_nil, app_nil_r.
    repeat split; try apply Hok; lia.
  - cbn [collect_recipes map first_seen]. unfold mbind, lift, key_of.
    rewrite parse_recipe_output_total.
    destruct (parsed (SPECIAL_TOKENS rt) raw) as [[t s] i]. cbn [fst].
    rewrite <- dict_contains_keys.
    destruct (dict_contains (lower t) d) eqn:Hc; [apply IH; assumption|].
    unfold draw_uuid4. rewrite (dict_set_new _ _ _ Hc).
    pose proof (dict_ok_snoc d (uuid4 rt (uuids_drawn w)) t s i Hok Hc) as Hok'.
    assert (Hl : length (d ++ [(lower t, mkRecipe (uuid4 rt (uuids_drawn w)) t s i)])
                 = S (length d)) by (rewrite length_app; simpl; lia).
    assert (Hk : dict_keys (d ++ [(lower t, mkRecipe (uuid4 rt (uuids_drawn w)) t s i)])
                 = dict_keys d ++ [lower t])
      by (unfold dict_keys; rewrite map_app; reflexivity).
    destruct (3 <=? length _) eqn:H3.
    + apply Nat.leb_le in H3. rewrite Hl in H3.
      do 2 eexists. split; [reflexivity|]. split; [exact Hok'|].
      split; [lia|]. rewrite Hk.
      replace (3 - length d) with 1 by lia. reflexivity.
    + apply Nat.leb_gt in H3. rewrite Hl in H3.
      edestruct (IH _ (mkWorld (pipeline_calls w) (S (uuids_drawn w)) (log w)) Hok')
        as [d' [w' [E [Hd' [Hl' Hk']]]]]; [lia|].
      exists d', w'. split; [exact E|]. split; [exact Hd'|]. split; [exact Hl'|].
      rewrite Hk', Hk, Hl, <- app_assoc.
      replace (3 - length d) with (S (3 - S (length d))) by lia. reflexivity.
Qed.

Lemma collect_recipes_break (rt : Runtime) (raws extra : list str) :
  forall (d d' : dict) (w w' : World),
    length d < 3 ->
    collect_recipes rt raws d w = (Ok d', w') ->
    3 <= length d' ->
    collect_recipes rt (raws ++ extra) d w = (Ok d', w').
Proof.
  induction raws as [|raw rest IH]; intros d d' w w' Hlen E H3.
  - cbn in E. inversion E; subst. lia.
  - revert E. cbn [collect_recipes app]. unfold mbind, lift.
    rewrite parse_recipe_output_total.
    destruct (parsed (SPECIAL_TOKENS rt) raw) as [[t s] i].
    destruct (dict_contains (lower t) d) eqn:Hc; [intros E; apply IH; assumption|].
    unfold draw_uuid4. rewrite (dict_set_new _ _ _ Hc).
    destruct (3 <=? length _) eqn:Hb; [intros E; exact E|].
    intros E. apply Nat.leb_gt in Hb. apply IH; assumption.
Qed.

Lemma dict_ok_titles (d : dict) :
  dict_ok d -> map (fun r => lower (title r)) (dict_values d) = dict_keys d.
Proof.
  intros [Hf _]. unfold dict_values, dict_keys. rewrite map_map.
  apply map_ext_in. intros kv Hin.
  rewrite Forall_forall in Hf. symmetry. apply Hf. exact Hin.
Qed.

Lemma dict_ok_nil : dict_ok [].
Proof. split; constructor. Qed.

(** C4: no two collected recipes share a case-insensitive title.  An
    output whose lower-cased title is already a key is skipped, so of two
    outputs titled "Soup" and "soup" only the first one is kept. *)
Theorem collected_titles_distinct :
  (forall (rt : Runtime) (raws : list str) (w : World),
     exists d w',
       collect_recipes rt raws [] w = (Ok d, w') /\
       NoDup (map (fun r => lower (title r)) (dict_values d))) /\
  (forall (rt : Runtime) (raw : str) (rest : list str) (d : dict) (w : World),
     dict_contains (key_of (SPECIAL_TOKENS rt) raw) d = true ->
     collect_recipes rt (raw :: rest) d w = collect_recipes rt rest d w) /\
  (forall (rt : Runtime) (r1 r2 d1 i1 d2 i2 : str) (w : World),
     parse_recipe_output (SPECIAL_TOKENS rt) r1 = Ok (lit "Soup", d1, i1) ->
     parse_recipe_output (SPECIAL_TOKENS rt) r2 = Ok (lit "soup", d2, i2) ->
     exists w',
       collect_recipes rt [r1; r2] [] w =
       (Ok [(lit "soup", mkRecipe (uuid4 rt (uuids_drawn w)) (lit "Soup") d1 i1)],
        w')).
Proof.
  split; [|split].
  - intros rt raws w.
    destruct (collect_recipes_spec rt raws [] w dict_ok_nil)
      as [d [w' [E [Hok _]]]]; [simpl; lia|].
    exists d, w'. split; [exact E|].
    rewrite (dict_ok_titles _ Hok). apply Hok.
  - intros rt raw rest d w. unfold key_of.
    cbn [collect_recipes]. unfold mbind, lift.
    rewrite parse_recipe_output_total.
    destruct (parsed (SPECIAL_TOKENS rt) raw) as [[t s] i]. cbn [fst].
    intros ->. reflexivity.
  - intros rt r1 r2 d1 i1 d2 i2 w H1 H2.
    cbn [collect_recipes]. unfold mbind, lift. rewrite H1, H2.
    eexists. reflexivity.
Qed.

Lemma collected_titles_distinct_witness :
  exists w',
    collect_recipes demo_runtime
      [lit "title: Soup<section>directions: boil"; lit "title: soup"] [] fresh_world =
    (Ok [(lit "soup", mkRecipe (lit "0") (lit "Soup") [] (lit "1. Boil"))], w').
Proof.
  exact (proj2 (proj2 collected_titles_distinct) demo_runtime
           (lit "title: Soup<section>directions: boil") (lit "title: soup")
           [] (lit "1. Boil") [] (lit "title: soup") fresh_world eq_refl eq_refl).
Defined.

(** C5: whatever the number of raw outputs, the collector returns at most
    three recipes, in the order in which their lower-cased titles were
    first seen; once three are collected the remaining outputs are
    ignored. *)
Theorem collected_at_most_three (rt : Runtime) (raws : list str) (w : World) :
  exists d w',
    collect_recipes rt raws [] w = (Ok d, w') /\
    length (dict_values d) <= 3 /\
    map (fun r => lower (title r)) (dict_values d) =
      firstn 3 (first_seen [] (map (key_of (SPECIAL_TOKENS rt)) raws)) /\
    (length (dict_values d) = 3 ->
     forall extra, collect_recipes rt (raws ++ extra) [] w = (Ok d, w')).
Proof.
  destruct (collect_recipes_spec rt raws [] w dict_ok_nil)
    as [d [w' [E [Hok [Hl Hk]]]]]; [simpl; lia|].
  exists d, w'. split; [exact E|].
  unfold dict_values at 1 3. rewrite length_map.
  split; [exact Hl|]. split.
  - rewrite (dict_ok_titles _ Hok). exact Hk.
  - intros H3 extra. apply collect_recipes_break; [simpl; lia | exact E | lia].
Qed.

Lemma collected_at_most_three_witness :
  let raws := [lit "title: Soup"; lit "title: SOUP"; lit "title: Stew";
               lit "title: Salad"] in
  collect_recipes demo_runtime (raws ++ [lit "title: Curry"]) [] fresh_world =
  collect_recipes demo_runtime raws [] fresh_world.
Proof.
  cbv zeta.
  destruct (collected_at_most_three demo_runtime
              [lit "title: Soup"; lit "title: SOUP"; lit "title: Stew";
               lit "title: Salad"] fresh_world) as [d [w' [E [_ [_ H]]]]].
  rewrite E. apply H.
  vm_compute in E. injection E as <- _. reflexivity.
Defined.

(** ** Removing special tokens *)

(** C8 (as stated it fails): "<pad>" and "</s>" do not overlap, yet
    removing one can bring the pieces of the other together, and the two
    orders of removal give different cleaned texts and different triples. *)
Lemma token_order_counterexample :
  let toks := [lit "<pad>"; lit "</s>"] in
  let toks' := [lit "</s>"; lit "<pad>"] in
  let raw := lit "<<pad>/s>" in
  tokens_disjoint toks = true /\
  Permutation toks toks' /\
  _clean_special_tokens toks raw = [] /\
  _clean_special_tokens toks' raw = lit "</s>" /\
  parse_recipe_output toks raw = Ok (lit "Untitled Recipe", [], []) /\
  parse_recipe_output toks' raw = Ok (lit "</s>", [], lit "</s>").
Proof.
  cbv zeta. repeat split. apply perm_swap.
Qed.

Lemma not_bracket_lt (c : ascii) : is_bracket c = false -> Ascii.eqb LT c = false.
Proof.
  unfold is_bracket. intros H. apply orb_false_iff in H as [H _].
  rewrite Ascii.eqb_sym. exact H.
Qed.

Lemma not_bracket_gt (c : ascii) : is_bracket c = false -> Ascii.eqb GT c = false.
Proof.
  unfold is_bracket. intros H. apply orb_false_iff in H as [_ H].
  rewrite Ascii.eqb_sym. exact H.
Qed.

Lemma bracket_free_cons (c : ascii) (s : str) :
  bracket_free (c :: s) = true -> is_bracket c = false /\ bracket_free s = true.
Proof.
  unfold bracket_free. simpl. intros H. apply andb_true_iff in H as [H1 H2].
  apply negb_true_iff in H1. auto.
Qed.

(** Against a group, the token "<b>" matches exactly when the bodies are
    equal. *)
Lemma startswith_body (b : str) :
  forall (g R : str),
    bracket_free g = true -> bracket_free b = true ->
    startswith (g ++ GT :: R) (b ++ [GT]) = str_eqb g b.
Proof.
  induction b as [|a b IH]; intros [|c g] R Hg Hb;
    cbn [app startswith str_eqb].
  - rewrite Ascii.eqb_refl. reflexivity.
  - apply bracket_free_cons in Hg as [Hc _].
    rewrite (not_bracket_gt _ Hc). reflexivity.
  - apply bracket_free_cons in Hb as [Ha _].
    rewrite Ascii.eqb_sym, (not_bracket_gt _ Ha). reflexivity.
  - apply bracket_free_cons in Hg as [_ Hg].
    apply bracket_free_cons in Hb as [_ Hb].
    rewrite (IH g R Hg Hb), Ascii.eqb_sym. reflexivity.
Qed.

Lemma replace_scan_skip (old new u R : str) :
  replace_scan old new (length u) (u ++ R) = replace_scan old new 0 R.
Proof. induction u as [|c u IH]; simpl; [reflexivity | exact IH]. Qed.

Lemma replace_scan_no_lt (old new u R : str) :
  Forall (fun c => Ascii.eqb LT c = false) u ->
  replace_scan (LT :: old) new 0 (u ++ R) =
  u ++ replace_scan (LT :: old) new 0 R.
Proof.
  induction 1 as [|c u Hc _ IH]; [reflexivity|].
  cbn [app replace_scan startswith]. rewrite Hc. cbn [andb].
  rewrite IH. reflexivity.
Qed.

Lemma body_no_lt (g : str) :
  bracket_free g = true -> Forall (fun c => Ascii.eqb LT c = false) (g ++ [GT]).
Proof.
  intros Hg. apply Forall_app. split; [|repeat constructor].
  apply Forall_forall. intros c Hc.
  unfold bracket_free in Hg. rewrite forallb_forall in Hg.
  apply not_bracket_lt. apply negb_true_iff. apply Hg. exact Hc.
Qed.

Lemma render_app (a b : list segment) : render (a ++ b) = render a ++ render b.
Proof. unfold render. apply flat_map_app. Qed.

Lemma render_plain (s : str) : render (map Plain s) = s.
Proof. induction s as [|c s IH]; simpl; [reflexivity | rewrite IH; reflexivity]. Qed.

(** On well-bracketed text, [replace] of a token "<b>" acts group by
    group. *)
Lemma replace_render (b new : str) (segs : list segment) :
  bracket_free b = true ->
  Forall segment_ok segs ->
  replace (wrap b) new (render segs) = render (subst_group b new segs).
Proof.
  intros Hb Hs. unfold replace, wrap.
  induction Hs as [|sg segs Hsg _ IH]; [reflexivity|].
  destruct sg as [c|g]; simpl in Hsg.
  - change (render (Plain c :: segs)) with (c :: render segs).
    change (subst_group b new (Plain c :: segs))
      with (Plain c :: subst_group b new segs).
    change (render (Plain c :: subst_group b new segs))
      with (c :: render (subst_group b new segs)).
    cbn [replace_scan startswith]. rewrite (not_bracket_lt _ Hsg). cbn [andb].
    rewrite IH. reflexivity.
  - change (render (Group g :: segs)) with (LT :: (g ++ [GT]) ++ render segs).
    change (subst_group b new (Group g :: segs))
      with ((if str_eqb g b then map Plain new else [Group g])
            ++ subst_group b new segs).
    rewrite render_app.
    cbn [replace_scan startswith]. rewrite Ascii.eqb_refl. cbn [andb].
    rewrite <- app_assoc. cbn [app].
    rewrite (startswith_body b g (render segs) Hsg Hb).
    destruct (str_eqb g b) eqn:E.
    + apply str_eqb_eq in E; subst g.
      replace (length (LT :: b ++ [GT]) - 1) with (length (b ++ [GT]))
        by (simpl; lia).
      change (b ++ GT :: render segs) with (b ++ [GT] ++ render segs).
      rewrite app_assoc, replace_scan_skip, IH, render_plain. reflexivity.
    + change (g ++ GT :: render segs) with (g ++ [GT] ++ render segs).
      rewrite app_assoc, (replace_scan_no_lt _ _ _ _ (body_no_lt g Hsg)), IH.
      change (render [Group g]) with (wrap g ++ []). rewrite app_nil_r.
      reflexivity.
Qed.

Lemma subst_group_ok (b new : str) (segs : list segment) :
  bracket_free new = true ->
  Forall segment_ok segs -> Forall segment_ok (subst_group b new segs).
Proof.
  intros Hn Hs. unfold subst_group.
  induction Hs as [|sg segs Hsg _ IH]; [constructor|].
  cbn [flat_map]. apply Forall_app. split; [|exact IH].
  destruct sg as [c|g]; [repeat constructor; exact Hsg|].
  destruct (str_eqb g b); [|repeat constructor; exact Hsg].
  apply Forall_forall. intros sg Hin. apply in_map_iff in Hin as [c [<- Hc]].
  unfold bracket_free in Hn. rewrite forallb_forall in Hn.
  apply negb_true_iff. apply Hn. exact Hc.
Qed.

Lemma subst_group_nil (b : str) (segs : list segment) :
  subst_group b [] segs = drop_groups [b] segs.
Proof.
  unfold subst_group, drop_groups.
  induction segs as [|sg segs IH]; [reflexivity|].
  cbn [flat_map filter existsb]. rewrite IH.
  destruct sg as [c|g]; [reflexivity|].
  rewrite orb_false_r. destruct (str_eqb g b); reflexivity.
Qed.

Lemma drop_groups_ok (bs : list str) (segs : list segment) :
  Forall segment_ok segs -> Forall segment_ok (drop_groups bs segs).
Proof.
  intros Hs. apply Forall_forall. intros sg Hin.
  apply filter_In in Hin as [Hin _].
  rewrite Forall_forall in Hs. apply Hs. exact Hin.
Qed.

Lemma drop_groups_cons (b : str) (bs : list str) (segs : list segment) :
  drop_groups bs (drop_groups [b] segs) = drop_groups (b :: bs) segs.
Proof.
  unfold drop_groups. induction segs as [|sg segs IH]; [reflexivity|].
  cbn [filter]. destruct sg as [c|g].
  - cbn [filter]. rewrite IH. reflexivity.
  - rewrite <- IH. cbn [existsb]. rewrite orb_false_r.
    destruct (str_eqb g b); cbn [negb orb filter]; reflexivity.
Qed.

(** Removing the tokens one after the other drops exactly the groups
    whose body is one of theirs. *)
Lemma fold_replace_drop (bs : list str) :
  forall segs : list segment,
    Forall (fun b => bracket_free b = true) bs ->
    Forall segment_ok segs ->
    fold_left (fun text tok => replace tok [] text) (map wrap bs) (render segs) =
    render (drop_groups bs segs).
Proof.
  induction bs as [|b bs IH]; intros segs Hbs Hs.
  - cbn [map fold_left]. unfold drop_groups.
    rewrite (forallb_filter_id _ segs); [reflexivity|].
    apply forallb_forall. intros [c|g] _; reflexivity.
  - inversion Hbs as [|? ? Hb Hbs']; subst.
    cbn [map fold_left]. rewrite (replace_render b [] segs Hb Hs).
    rewrite subst_group_nil, IH;
      [rewrite drop_groups_cons; reflexivity | exact Hbs' |].
    apply drop_groups_ok. exact Hs.
Qed.

Lemma existsb_perm {A : Type} (f : A -> bool) (l l' : list A) :
  Permutation l l' -> existsb f l = existsb f l'.
Proof.
  induction 1 as [|x l l' _ IH|x y l|l l' l'' _ IH1 _ IH2]; simpl.
  - reflexivity.
  - rewrite IH. reflexivity.
  - destruct (f x), (f y); reflexivity.
  - congruence.
Qed.

Lemma drop_groups_perm (bs bs' : list str) (segs : list segment) :
  Permutation bs bs' -> drop_groups bs segs = drop_groups bs' segs.
Proof.
  intros Hp. unfold drop_groups. apply filter_ext. intros [c|g]; [reflexivity|].
  rewrite (existsb_perm _ _ _ Hp). reflexivity.
Qed.

Lemma bracket_tokens_wrap (toks : list str) :
  Forall (fun t => bracket_token t = true) toks ->
  toks = map wrap (map body_of toks) /\
  Forall (fun b => bracket_free b = true) (map body_of toks).
Proof.
  induction 1 as [|t toks Ht _ [IH1 IH2]]; [split; constructor|].
  unfold bracket_token in Ht. apply andb_true_iff in Ht as [Hw Hf].
  apply str_eqb_eq in Hw. cbn [map]. split.
  - rewrite <- Hw, <- IH1. reflexivity.
  - constructor; assumption.
Qed.

Lemma well_bracketed_from_segments (s : str) :
  (well_bracketed_from false s = true ->
   exists segs, Forall segment_ok segs /\ s = render segs) /\
  (well_bracketed_from true s = true ->
   exists g segs,
     bracket_free g = true /\ Forall segment_ok segs /\
     s = g ++ GT :: render segs).
Proof.
  induction s as [|c r [IH1 IH2]].
  - split; [intros _; exists []; split; [constructor | reflexivity]|].
    simpl. discriminate.
  - cbn [well_bracketed_from]. destruct (Ascii.eqb c LT) eqn:Elt.
    + apply Ascii.eqb_eq in Elt; subst c. split; [|simpl; discriminate].
      cbn [negb andb]. intros H.
      destruct (IH2 H) as [g [segs [Hg [Hs ->]]]].
      exists (Group g :: segs). split; [constructor; assumption|].
      change (render (Group g :: segs)) with (wrap g ++ render segs).
      unfold wrap. cbn [app]. rewrite <- app_assoc. reflexivity.
    + destruct (Ascii.eqb c GT) eqn:Egt.
      * apply Ascii.eqb_eq in Egt; subst c. split; [simpl; discriminate|].
        cbn [andb]. intros H.
        destruct (IH1 H) as [segs [Hs ->]].
        exists [], segs. repeat split; assumption.
      * assert (Hc : is_bracket c = false)
          by (unfold is_bracket; rewrite Elt, Egt; reflexivity).
        split; intros H.
        -- destruct (IH1 H) as [segs [Hs ->]].
           exists (Plain c :: segs). split; [constructor; assumption|reflexivity].
        -- destruct (IH2 H) as [g [segs [Hg [Hs ->]]]].
           exists (c :: g), segs. split; [|split; [exact Hs | reflexivity]].
           unfold bracket_free in *. cbn [forallb]. rewrite Hc, Hg. reflexivity.
Qed.

Lemma well_bracketed_segments (s : str) :
  well_bracketed s = true ->
  exists segs, Forall segment_ok segs /\ s = render segs.
Proof. apply (proj1 (well_bracketed_from_segments s)). Qed.

(** On well-bracketed text the cleaned string names the groups that
    survive, whatever the order of the tokens. *)
Lemma clean_render (toks : list str) (segs : list segment) :
  Forall (fun t => bracket_token t = true) toks ->
  Forall segment_ok segs ->
  _clean_special_tokens toks (render segs) =
  strip (render (drop_groups (map body_of toks)
                   (subst_group (lit "sep") (lit "--")
                      (subst_group (lit "section") [NL] segs)))).
Proof.
  intros Ht Hs. unfold _clean_special_tokens.
  destruct (bracket_tokens_wrap _ Ht) as [Ew Hb].
  change (lit "<section>") with (wrap (lit "section")).
  change (lit "<sep>") with (wrap (lit "sep")).
  assert (H1 : Forall segment_ok (subst_group (lit "section") [NL] segs))
    by (apply subst_group_ok; [reflexivity | exact Hs]).
  assert (H2 : Forall segment_ok
                 (subst_group (lit "sep") (lit "--")
                    (subst_group (lit "section") [NL] segs)))
    by (apply subst_group_ok; [reflexivity | exact H1]).
  rewrite (replace_render (lit "section") [NL] segs eq_refl Hs).
  rewrite (replace_render (lit "sep") (lit "--") _ eq_refl H1).
  rewrite Ew at 1. rewrite (fold_replace_drop _ _ Hb H2). reflexivity.
Qed.

(** C8 (amended): when every special token has the shape "<body>" with no
    angle bracket in the body, and the raw string is well bracketed,
    removing the tokens in any two orders gives the same cleaned string
    and the same parsed triple; and for a fixed order the parser is a
    function of the raw string. *)
Theorem token_order_independent :
  (forall (toks toks' : list str) (raw : str),
     Forall (fun t => bracket_token t = true) toks ->
     Permutation toks toks' ->
     well_bracketed raw = true ->
     _clean_special_tokens toks raw = _clean_special_tokens toks' raw /\
     parse_recipe_output toks raw = parse_recipe_output toks' raw) /\
  (forall (toks : list str) (raw raw' : str),
     raw = raw' -> parse_recipe_output toks raw = parse_recipe_output toks raw').
Proof.
  split; [|intros toks raw raw' ->; reflexivity].
  intros toks toks' raw Ht Hp Hw.
  assert (E : _clean_special_tokens toks raw = _clean_special_tokens toks' raw).
  { destruct (well_bracketed_segments raw Hw) as [segs [Hs ->]].
    assert (Ht' : Forall (fun t => bracket_token t = true) toks')
      by (apply (Permutation_Forall Hp); exact Ht).
    rewrite (clean_render _ _ Ht Hs), (clean_render _ _ Ht' Hs).
    rewrite (drop_groups_perm _ _ _ (Permutation_map body_of Hp)). reflexivity. }
  split; [exact E|]. unfold parse_recipe_output. rewrite E. reflexivity.
Qed.

Lemma token_order_independent_witness :
  parse_recipe_output [lit "<pad>"; lit "</s>"; lit "<unk>"]
    (lit "<pad>title: Stew<section>directions: chop<sep>boil</s><unk>") =
  parse_recipe_output [lit "<unk>"; lit "<pad>"; lit "</s>"]
    (lit "<pad>title: Stew<section>directions: chop<sep>boil</s><unk>").
Proof.
  apply (proj1 token_order_independent
           [lit "<pad>"; lit "</s>"; lit "<unk>"]
           [lit "<unk>"; lit "<pad>"; lit "</s>"]
           (lit "<pad>title: Stew<section>directions: chop<sep>boil</s><unk>")).
  - repeat constructor.
  - apply Permutation_sym, (Permutation_cons_append [lit "<pad>"; lit "</s>"]).
  - reflexivity.
Defined.

(** ** Further properties of the parser *)

Lemma truthy_false_nil (s : str) : truthy s = false -> s = [].
Proof. destruct s; simpl; [reflexivity | discriminate]. Qed.

Lemma lstrip_nil_allspace (s : str) :
  lstrip s = [] -> forallb isspace s = true.
Proof.
  induction s as [|c r IH]; simpl; [reflexivity|].
  destruct (isspace c); [exact IH | discriminate].
Qed.

Lemma allspace_lstrip (s : str) :
  forallb isspace s = true -> lstrip s = [].
Proof.
  induction s as [|c r IH]; simpl; [reflexivity|].
  destruct (isspace c); [exact IH | discriminate].
Qed.

Lemma allspace_strip (s : str) : forallb isspace s = true -> strip s = [].
Proof. intros H. unfold strip. rewrite (allspace_lstrip _ H). reflexivity. Qed.

Lemma strip_nil_allspace (s : str) : strip s = [] -> forallb isspace s = true.
Proof.
  unfold strip, rstrip. intros H.
  assert (H1 : lstrip (rev (lstrip s)) = []).
  { destruct (lstrip (rev (lstrip s))) as [|x l]; [reflexivity|].
    simpl in H. destruct (rev l); discriminate H. }
  apply lstrip_nil_allspace in H1.
  destruct (lstrip_head s) as [E | [c [r [E Hc]]]];
    [apply lstrip_nil_allspace; exact E|].
  rewrite E in H1. rewrite forallb_forall in H1.
  rewrite (H1 c) in Hc; [discriminate Hc|].
  apply in_rev. rewrite rev_involutive. left; reflexivity.
Qed.

Lemma split_newline_allspace (s : str) :
  Forall (fun p => forallb isspace p = true) (split [NL] s) ->
  forallb isspace s = true.
Proof.
  unfold split. induction s as [|c r IH]; [reflexivity|].
  cbn [split_scan startswith length Nat.sub].
  destruct (Ascii.eqb NL c) eqn:E; cbn [andb].
  - apply Ascii.eqb_eq in E; subst c. intros H.
    inversion H as [|? ? _ H']; subst. cbn [forallb].
    rewrite (IH H'). reflexivity.
  - intros H. destruct (split_scan [NL] 0 r) as [|h t].
    + inversion H as [|? ? Hc _]; subst. cbn [forallb] in *.
      apply andb_true_iff in Hc as [Hc _]. rewrite Hc. apply IH. constructor.
    + cbn [cons_head] in H. inversion H as [|? ? Hc Ht]; subst.
      cbn [forallb] in *. apply andb_true_iff in Hc as [Hc Hh].
      rewrite Hc. apply IH. constructor; assumption.
Qed.

Lemma lines_of_nil_allspace (s : str) :
  lines_of s = [] -> forallb isspace s = true.
Proof.
  unfold lines_of. intros H. apply map_eq_nil in H.
  apply split_newline_allspace. apply Forall_forall. intros p Hp.
  apply strip_nil_allspace.
  destruct (truthy (strip p)) eqn:E; [|apply truthy_false_nil; exact E].
  assert (Hin : In p (filter (fun l => truthy (strip l)) (split [NL] s)))
    by (apply filter_In; split; assumption).
  rewrite H in Hin. destruct Hin.
Qed.

Lemma clean_stripped (toks : list str) (raw : str) :
  strip (_clean_special_tokens toks raw) = _clean_special_tokens toks raw.
Proof. unfold _clean_special_tokens. apply strip_idem. Qed.

Lemma lines_of_nil_clean (toks : list str) (raw : str) :
  lines_of (_clean_special_tokens toks raw) = [] ->
  _clean_special_tokens toks raw = [].
Proof.
  intros H. rewrite <- clean_stripped.
  apply allspace_strip, lines_of_nil_allspace, H.
Qed.

(** X1: when no line of the cleaned text carries one of the three
    prefixes, the parser returns the first non-empty line cut to 80
    characters as title, an empty description and the whole cleaned text
    as instructions. *)
Theorem parse_without_markers (toks : list str) (raw first : str)
    (rest : list str) :
  lines_of (_clean_special_tokens toks raw) = first :: rest ->
  last_match P_TITLE (first :: rest) = None ->
  last_match P_INGREDIENTS (first :: rest) = None ->
  last_match P_DIRECTIONS (first :: rest) = None ->
  parse_recipe_output toks raw =
  Ok (slice_to 80 first, [], _clean_special_tokens toks raw).
Proof.
  intros E Ht Hi Hd. rewrite parse_recipe_output_spec. cbv zeta. rewrite E.
  unfold title_field, ingredients_field, directions_field.
  rewrite Ht, Hi, Hd, str_eqb_refl, slice_to_idem. reflexivity.
Qed.

Lemma parse_without_markers_witness :
  parse_recipe_output T5_TOKENS
    (lit "<pad> Heat the oil.<section>Add rice</s>") =
  Ok (lit "Heat the oil.", [], lit "Heat the oil." ++ NL :: lit "Add rice").
Proof.
  apply (parse_without_markers T5_TOKENS
           (lit "<pad> Heat the oil.<section>Add rice</s>")
           (lit "Heat the oil.") [lit "Add rice"]); reflexivity.
Defined.

(** X2: when the cleaned text has no non-empty line it is the empty
    string, so the fallback triple is exactly
    ("Untitled Recipe", "", ""). *)
Theorem parse_blank_text (toks : list str) (raw : str) :
  lines_of (_clean_special_tokens toks raw) = [] ->
  _clean_special_tokens toks raw = [] /\
  parse_recipe_output toks raw = Ok (lit "Untitled Recipe", [], []).
Proof.
  intros H. pose proof (lines_of_nil_clean toks raw H) as E.
  split; [exact E|].
  rewrite parse_recipe_output_spec. cbv zeta. rewrite H, E. reflexivity.
Qed.

Lemma parse_blank_text_witness :
  _clean_special_tokens T5_TOKENS (lit "<pad> <section> </s>") = [] /\
  parse_recipe_output T5_TOKENS (lit "<pad> <section> </s>") =
  Ok (lit "Untitled Recipe", [], []).
Proof.
  apply (parse_blank_text T5_TOKENS (lit "<pad> <section> </s>")).
  reflexivity.
Defined.

Lemma items_of_nil : items_of [] = [].
Proof. reflexivity. Qed.

(** X3: the description is either empty or begins with "Ingredients: ";
    it is empty exactly when the last ingredients line (if any) lists no
    item. *)
Theorem description_shape (toks : list str) (raw : str) :
  exists t d i,
    parse_recipe_output toks raw = Ok (t, d, i) /\
    (d = [] \/ startswith d (lit "Ingredients: ") = true) /\
    (d = [] <->
     items_of (ingredients_field (lines_of (_clean_special_tokens toks raw))) = []).
Proof.
  rewrite parse_recipe_output_spec. cbv zeta.
  destruct (lines_of (_clean_special_tokens toks raw)) as [|first rest].
  - do 3 eexists. split; [reflexivity|]. split; [left; reflexivity|].
    split; reflexivity.
  - do 3 eexists. split; [reflexivity|].
    unfold short_desc_of.
    destruct (ingredients_field (first :: rest)) as [|c f] eqn:Ef.
    + split; [left; reflexivity | split; reflexivity].
    + cbn [truthy]. destruct (items_of (c :: f)) as [|it its].
      * split; [left; reflexivity | split; reflexivity].
      * split; [right; reflexivity | split; discriminate].
Qed.

Lemma lstrip_fixed (s : str) :
  lstrip s = s -> s = [] \/ exists c r, s = c :: r /\ isspace c = false.
Proof.
  intros H. destruct (lstrip_head s) as [E | [c [r [E Hc]]]];
    rewrite H in E; [left; exact E | right; eauto].
Qed.

Lemma lstrip_slice_to (n : nat) (s : str) :
  lstrip s = s -> lstrip (slice_to n s) = slice_to n s.
Proof.
  intros H. destruct (lstrip_fixed s H) as [-> | [c [r [-> Hc]]]].
  - destruct n; reflexivity.
  - destruct n; [reflexivity|]. unfold slice_to. cbn [firstn lstrip].
    rewrite Hc. reflexivity.
Qed.

Lemma lstrip_strip (s : str) : lstrip (strip s) = strip s.
Proof. apply lstrip_rstrip_lstrip. Qed.

Lemma lines_of_stripped (cleaned : str) :
  Forall (fun l => lstrip l = l) (lines_of cleaned).
Proof.
  unfold lines_of. apply Forall_forall. intros l Hl.
  apply in_map_iff in Hl as [x [<- _]]. apply lstrip_strip.
Qed.

Lemma title_value_lstrip (line : str) : lstrip (title_value line) = title_value line.
Proof.
  unfold title_value, remainder.
  destruct (truthy _); [apply lstrip_strip | reflexivity].
Qed.

(** X4: the title never begins with a whitespace character. *)
Theorem title_no_leading_space (toks : list str) (raw : str) :
  exists t d i,
    parse_recipe_output toks raw = Ok (t, d, i) /\ lstrip t = t.
Proof.
  destruct (parsed_title_cases toks raw) as [t [d [i [E H]]]].
  exists t, d, i. split; [exact E|].
  pose proof (lines_of_stripped (_clean_special_tokens toks raw)) as Hs.
  destruct (lines_of (_clean_special_tokens toks raw)) as [|first rest].
  - subst t. reflexivity.
  - inversion Hs as [|? ? Hf _]; subst.
    apply lstrip_slice_to.
    destruct (str_eqb _ _).
    + apply lstrip_slice_to. exact Hf.
    + unfold title_field. destruct (last_match _ _);
        [apply title_value_lstrip | reflexivity].
Qed.

Lemma join_nonempty (sep x : str) (l : list str) :
  x <> [] -> join sep (x :: l) <> [].
Proof.
  intros Hx. destruct l; cbn [join]; [exact Hx|].
  destruct x; [contradiction Hx; reflexivity | discriminate].
Qed.

Lemma lines_of_nil : lines_of [] = [].
Proof. reflexivity. Qed.

(** X5: the instructions are empty only when the cleaned text is empty. *)
Theorem instructions_empty_iff (toks : list str) (raw : str) :
  exists t d i,
    parse_recipe_output toks raw = Ok (t, d, i) /\
    (i = [] <-> _clean_special_tokens toks raw = []).
Proof.
  rewrite parse_recipe_output_spec. cbv zeta.
  destruct (lines_of (_clean_special_tokens toks raw)) as [|first rest] eqn:E.
  - do 3 eexists. split; [reflexivity|]. tauto.
  - do 3 eexists. split; [reflexivity|].
    assert (Hc : _clean_special_tokens toks raw <> []).
    { intros H. rewrite H in E. discriminate E. }
    unfold instructions_of.
    destruct (truthy (directions_field (first :: rest))); [|tauto].
    destruct (items_of _) as [|step steps]; [tauto|].
    cbn [numbered]. split; [|tauto]. intros H. exfalso.
    revert H. apply join_nonempty.
    destruct (str_of_nat (0 + 1)); discriminate.
Qed.

Lemma upper_char_idem (c : ascii) : upper_char (upper_char c) = upper_char c.
Proof. ascii_cases c; reflexivity. Qed.

(** ** Further properties of the cleaning *)

Lemma rstrip_snoc (x : str) (c : ascii) :
  rstrip (x ++ [c]) = if isspace c then rstrip x else x ++ [c].
Proof.
  unfold rstrip. rewrite rev_app_distr. cbn [rev app lstrip].
  destruct (isspace c); [reflexivity|].
  cbn [rev]. rewrite rev_involutive. reflexivity.
Qed.

Lemma lstrip_render (segs : list segment) :
  exists segs', lstrip (render segs) = render segs' /\ incl segs' segs.
Proof.
  induction segs as [|sg segs [segs' [E Hi]]].
  - exists []. split; [reflexivity | apply incl_refl].
  - destruct sg as [c|g].
    + change (render (Plain c :: segs)) with (c :: render segs).
      cbn [lstrip]. destruct (isspace c).
      * exists segs'. split; [exact E | apply incl_tl; exact Hi].
      * exists (Plain c :: segs). split; [reflexivity | apply incl_refl].
    + exists (Group g :: segs). split; [reflexivity | apply incl_refl].
Qed.

Lemma rstrip_render (segs : list segment) :
  exists segs', rstrip (render segs) = render segs' /\ incl segs' segs.
Proof.
  induction segs as [|sg segs [segs' [E Hi]]] using rev_ind.
  - exists []. split; [reflexivity | apply incl_refl].
  - rewrite render_app. destruct sg as [c|g].
    + change (render [Plain c]) with [c]. rewrite rstrip_snoc.
      destruct (isspace c).
      * exists segs'. split; [exact E | apply incl_appl; exact Hi].
      * exists (segs ++ [Plain c]). rewrite render_app.
        split; [reflexivity | apply incl_refl].
    + exists (segs ++ [Group g]). rewrite render_app.
      change (render [Group g]) with (((LT :: g) ++ [GT]) ++ []).
      rewrite app_nil_r, app_assoc, rstrip_snoc.
      split; [reflexivity | apply incl_refl].
Qed.

Lemma strip_render (segs : list segment) :
  exists segs', strip (render segs) = render segs' /\ incl segs' segs.
Proof.
  unfold strip. destruct (lstrip_render segs) as [s1 [E1 H1]].
  destruct (rstrip_render s1) as [s2 [E2 H2]].
  exists s2. rewrite E1, E2. split; [reflexivity|].
  apply (incl_tran H2 H1).
Qed.

Lemma in_subst_group (g b new : str) (segs : list segment) :
  In (Group g) (subst_group b new segs) ->
  In (Group g) segs /\ str_eqb g b = false.
Proof.
  unfold subst_group. intros H. apply in_flat_map in H as [sg [Hin H]].
  destruct sg as [c|g'].
  - destruct H as [H|[]]. discriminate H.
  - destruct (str_eqb g' b) eqn:E.
    + apply in_map_iff in H as [c [Hc _]]. discriminate Hc.
    + destruct H as [H|[]]. inversion H; subst. auto.
Qed.

Lemma in_drop_groups (g : str) (bs : list str) (segs : list segment) :
  In (Group g) (drop_groups bs segs) ->
  In (Group g) segs /\ existsb (str_eqb g) bs = false.
Proof.
  unfold drop_groups. intros H. apply filter_In in H as [Hin H].
  apply negb_true_iff in H. auto.
Qed.

Lemma subst_group_absent (b new : str) (segs : list segment) :
  (forall g, In (Group g) segs -> str_eqb g b = false) ->
  subst_group b new segs = segs.
Proof.
  unfold subst_group. induction segs as [|sg segs IH]; intros H; [reflexivity|].
  cbn [flat_map]. rewrite IH by (intros g Hg; apply H; right; exact Hg).
  destruct sg as [c|g]; [reflexivity|].
  rewrite (H g) by (left; reflexivity). reflexivity.
Qed.

Lemma drop_groups_absent (bs : list str) (segs : list segment) :
  (forall g, In (Group g) segs -> existsb (str_eqb g) bs = false) ->
  drop_groups bs segs = segs.
Proof.
  unfold drop_groups. intros H. apply forallb_filter_id.
  apply forallb_forall. intros [c|g] Hin; [reflexivity|].
  rewrite (H g Hin). reflexivity.
Qed.

Lemma occurs_no_lt (t u R : str) :
  Forall (fun c => Ascii.eqb LT c = false) u ->
  occurs (LT :: t) (u ++ R) = occurs (LT :: t) R.
Proof.
  induction 1 as [|c u Hc _ IH]; [reflexivity|].
  cbn [app occurs startswith]. rewrite Hc. cbn [andb orb]. exact IH.
Qed.

(** A token "<b>" does not occur in well-bracketed text none of whose
    groups has the body [b]. *)
Lemma occurs_render (b : str) (segs : list segment) :
  bracket_free b = true ->
  Forall segment_ok segs ->
  (forall g, In (Group g) segs -> str_eqb g b = false) ->
  occurs (wrap b) (render segs) = false.
Proof.
  intros Hb Hs. unfold wrap.
  induction Hs as [|sg segs Hsg _ IH]; intros Hg; [reflexivity|].
  assert (IH' : occurs (LT :: b ++ [GT]) (render segs) = false)
    by (apply IH; intros g Hin; apply Hg; right; exact Hin).
  destruct sg as [c|g]; simpl in Hsg.
  - change (render (Plain c :: segs)) with (c :: render segs).
    cbn [occurs startswith]. rewrite (not_bracket_lt _ Hsg). exact IH'.
  - change (render (Group g :: segs)) with (LT :: (g ++ [GT]) ++ render segs).
    cbn [occurs startswith]. rewrite Ascii.eqb_refl. cbn [andb].
    rewrite <- app_assoc. cbn [app].
    rewrite (startswith_body b g (render segs) Hsg Hb).
    rewrite (Hg g) by (left; reflexivity). cbn [orb].
    change (g ++ GT :: render segs) with (g ++ [GT] ++ render segs).
    rewrite app_assoc, (occurs_no_lt _ _ _ (body_no_lt g Hsg)). exact IH'.
Qed.

(** The cleaned text of a well-bracketed string, as segments: no group
    left is a special token, "<section>" or "<sep>". *)
Lemma clean_segments (toks : list str) (raw : str) :
  Forall (fun t => bracket_token t = true) toks ->
  well_bracketed raw = true ->
  exists segs,
    _clean_special_tokens toks raw = render segs /\
    Forall segment_ok segs /\
    (forall g, In (Group g) segs ->
       str_eqb g (lit "section") = false /\
       str_eqb g (lit "sep") = false /\
       existsb (str_eqb g) (map body_of toks) = false).
Proof.
  intros Ht Hw.
  destruct (well_bracketed_segments raw Hw) as [segs [Hs ->]].
  rewrite (clean_render _ _ Ht Hs).
  set (s1 := subst_group (lit "section") [NL] segs).
  set (s2 := subst_group (lit "sep") (lit "--") s1).
  set (s3 := drop_groups (map body_of toks) s2).
  assert (H1 : Forall segment_ok s1)
    by (apply subst_group_ok; [reflexivity | exact Hs]).
  assert (H2 : Forall segment_ok s2)
    by (apply subst_group_ok; [reflexivity | exact H1]).
  assert (H3 : Forall segment_ok s3) by (apply drop_groups_ok; exact H2).
  destruct (strip_render s3) as [s4 [E Hi]].
  exists s4. split; [exact E|]. split.
  - rewrite Forall_forall in *. intros sg Hin. apply H3, Hi, Hin.
  - intros g Hin. apply Hi in Hin.
    apply in_drop_groups in Hin as [Hin Hd].
    apply in_subst_group in Hin as [Hin Hsep].
    apply in_subst_group in Hin as [_ Hsec]. auto.
Qed.

Lemma existsb_body_false (g : str) (toks : list str) (tok : str) :
  existsb (str_eqb g) (map body_of toks) = false ->
  In tok toks -> str_eqb g (body_of tok) = false.
Proof.
  intros H Hin. destruct (str_eqb g (body_of tok)) eqn:E; [|reflexivity].
  rewrite <- H. symmetry. apply existsb_exists.
  exists (body_of tok). split; [apply in_map; exact Hin | exact E].
Qed.

(** X7: when every special token has the shape "<body>" and the raw
    string is well bracketed, the cleaned text contains no special token,
    no "<section>" and no "<sep>". *)
Theorem cleaned_has_no_token (toks : list str) (raw : str) :
  Forall (fun t => bracket_token t = true) toks ->
  well_bracketed raw = true ->
  Forall (fun tok => occurs tok (_clean_special_tokens toks raw) = false) toks /\
  occurs (lit "<section>") (_clean_special_tokens toks raw) = false /\
  occurs (lit "<sep>") (_clean_special_tokens toks raw) = false.
Proof.
  intros Ht Hw.
  destruct (clean_segments toks raw Ht Hw) as [segs [E [Hs Hg]]].
  rewrite E. split; [|split].
  - rewrite Forall_forall in *. intros tok Hin.
    pose proof (Ht tok Hin) as Hb. unfold bracket_token in Hb.
    apply andb_true_iff in Hb as [Hw' Hf]. apply str_eqb_eq in Hw'.
    rewrite Hw'. apply occurs_render; [exact Hf | apply Forall_forall; exact Hs|].
    intros g Hgin. apply (existsb_body_false g toks tok); [|exact Hin].
    apply (Hg g Hgin).
  - change (lit "<section>") with (wrap (lit "section")).
    apply occurs_render; [reflexivity | exact Hs|].
    intros g Hgin. apply (Hg g Hgin).
  - change (lit "<sep>") with (wrap (lit "sep")).
    apply occurs_render; [reflexivity | exact Hs|].
    intros g Hgin. apply (Hg g Hgin).
Qed.

Lemma cleaned_has_no_token_witness :
  Forall (fun tok =>
            occurs tok (_clean_special_tokens T5_TOKENS
                          (lit "<pad>title: Stew<sep><unk><section>done</s>")) = false)
         T5_TOKENS.
Proof.
  apply (cleaned_has_no_token T5_TOKENS
           (lit "<pad>title: Stew<sep><unk><section>done</s>")).
  - repeat constructor.
  - reflexivity.
Defined.

(** X8: under the same two conditions cleaning is idempotent: cleaning a
    cleaned text gives it back. *)
Theorem clean_idempotent (toks : list str) (raw : str) :
  Forall (fun t => bracket_token t = true) toks ->
  well_bracketed raw = true ->
  _clean_special_tokens toks (_clean_special_tokens toks raw) =
  _clean_special_tokens toks raw.
Proof.
  intros Ht Hw.
  destruct (clean_segments toks raw Ht Hw) as [segs [E [Hs Hg]]].
  rewrite <- (clean_stripped toks raw) at 2. rewrite E.
  rewrite (clean_render _ _ Ht Hs).
  rewrite (subst_group_absent (lit "section") [NL] segs)
    by (intros g Hin; apply (Hg g Hin)).
  rewrite (subst_group_absent (lit "sep") (lit "--") segs)
    by (intros g Hin; apply (Hg g Hin)).
  rewrite (drop_groups_absent (map body_of toks) segs)
    by (intros g Hin; apply (Hg g Hin)).
  reflexivity.
Qed.

Lemma clean_idempotent_witness :
  _clean_special_tokens T5_TOKENS
    (_clean_special_tokens T5_TOKENS (lit " <pad>title: Stew<sep>x <b> </s> ")) =
  _clean_special_tokens T5_TOKENS (lit " <pad>title: Stew<sep>x <b> </s> ").
Proof.
  apply (clean_idempotent T5_TOKENS (lit " <pad>title: Stew<sep>x <b> </s> ")).
  - repeat constructor.
  - reflexivity.
Defined.

(** ** Further properties of the normalization *)

Lemma clean_ingredients_normal (ings : list str) :
  Forall (fun e => e <> [] /\ strip e = e /\ lower e = e) (clean_ingredients ings).
Proof.
  rewrite clean_ingredients_filter. apply Forall_forall. intros e He.
  apply in_map_iff in He as [ing [<- Hi]].
  apply filter_In in Hi as [_ Hi]. apply truthy_true in Hi.
  split; [|split].
  - intros E. apply (proj1 (lower_nil_iff _)) in E. contradiction.
  - rewrite strip_lower, strip_idem. reflexivity.
  - apply lower_idem.
Qed.

Lemma clean_ingredients_fixed (l : list str) :
  Forall (fun e => e <> [] /\ strip e = e /\ lower e = e) l ->
  clean_ingredients l = l.
Proof.
  rewrite clean_ingredients_filter.
  induction 1 as [|e l [Hne [Hs Hl]] _ IH]; [reflexivity|].
  cbn [filter]. rewrite Hs. destruct e; [contradiction Hne; reflexivity|].
  cbn [truthy map]. rewrite Hs, Hl, IH. reflexivity.
Qed.

(** X9: normalizing the ingredients is idempotent, and it keeps as many
    entries as the request has non-blank ones. *)
Theorem clean_ingredients_idempotent (ings : list str) :
  clean_ingredients (clean_ingredients ings) = clean_ingredients ings /\
  length (clean_ingredients ings) =
    length (filter (fun ing => negb (forallb isspace ing)) ings).
Proof.
  split; [apply clean_ingredients_fixed, clean_ingredients_normal|].
  rewrite clean_ingredients_filter, length_map. f_equal.
  apply filter_ext. intros ing.
  destruct (truthy (strip ing)) eqn:E.
  - destruct (forallb isspace ing) eqn:F; [|reflexivity].
    rewrite (allspace_strip _ F) in E. discriminate E.
  - apply truthy_false_nil, strip_nil_allspace in E. rewrite E. reflexivity.
Qed.

(** ** Further properties of the collector *)

Lemma collect_recipes_world (rt : Runtime) (raws : list str) :
  forall (d : dict) (w : World),
  exists added w',
    collect_recipes rt raws d w = (Ok (d ++ added), w') /\
    map id (dict_values added) =
      map (uuid4 rt) (seq (uuids_drawn w) (length added)) /\
    uuids_drawn w' = uuids_drawn w + length added /\
    pipeline_calls w' = pipeline_calls w /\
    log w' = log w.
Proof.
  induction raws as [|raw rest IH]; intros d w.
  - exists [], w. rewrite app_nil_r. cbn. repeat split; lia.
  - cbn [collect_recipes]. unfold mbind, lift.
    rewrite parse_recipe_output_total.
    destruct (parsed (SPECIAL_TOKENS rt) raw) as [[t s] i].
    destruct (dict_contains (lower t) d) eqn:Hc; [apply IH|].
    unfold draw_uuid4. rewrite (dict_set_new _ _ _ Hc).
    destruct (3 <=? length _).
    + exists [(lower t, mkRecipe (uuid4 rt (uuids_drawn w)) t s i)].
      eexists. split; [reflexivity|]. cbn. repeat split; lia.
    + destruct (IH (d ++ [(lower t, mkRecipe (uuid4 rt (uuids_drawn w)) t s i)])
                   (mkWorld (pipeline_calls w) (S (uuids_drawn w)) (log w)))
        as [added [w' [E [Hid [Hu [Hp Hl]]]]]].
      exists ((lower t, mkRecipe (uuid4 rt (uuids_drawn w)) t s i) :: added), w'.
      rewrite E, <- app_assoc.
      cbn [uuids_drawn pipeline_calls log] in Hid, Hu, Hp, Hl.
      split; [reflexivity|]. unfold dict_values in *.
      cbn [map snd id length seq]. rewrite Hid.
      repeat split; try assumption; lia.
Qed.

Lemma NoDup_map_injective {A B : Type} (f : A -> B) (l : list A) :
  (forall x y, f x = f y -> x = y) -> NoDup l -> NoDup (map f l).
Proof.
  intros Hf. induction 1 as [|x l Hx _ IH]; cbn [map]; constructor; [|exact IH].
  intros Hin. apply in_map_iff in Hin as [y [E Hy]].
  apply Hf in E. subst y. contradiction.
Qed.

(** X10: the collector draws exactly one UUID for each recipe it returns,
    in order (skipped duplicates draw none), and touches neither the log
    nor the pipeline; when the UUID source never repeats, the identifiers
    of the recipes are pairwise distinct. *)
Theorem collector_draws_one_uuid_each (rt : Runtime) (raws : list str) (w : World) :
  exists d w',
    collect_recipes rt raws [] w = (Ok d, w') /\
    map id (dict_values d) = map (uuid4 rt) (seq (uuids_drawn w) (length d)) /\
    uuids_drawn w' = uuids_drawn w + length d /\
    pipeline_calls w' = pipeline_calls w /\
    log w' = log w /\
    ((forall m n, uuid4 rt m = uuid4 rt n -> m = n) ->
     NoDup (map id (dict_values d))).
Proof.
  destruct (collect_recipes_world rt raws [] w) as [d [w' [E [Hid [Hu [Hp Hl]]]]]].
  exists d, w'. cbn [app] in E. repeat split; try assumption.
  intros Hinj. rewrite Hid. apply NoDup_map_injective.
  - exact Hinj.
  - apply seq_NoDup.
Qed.

Lemma str_of_nat_inj (m n : nat) : str_of_nat m = str_of_nat n -> m = n.
Proof.
  unfold str_of_nat. intros H.
  apply (f_equal string_of_list_ascii) in H.
  rewrite !string_of_list_ascii_of_string in H.
  apply (f_equal NilEmpty.uint_of_string) in H.
  rewrite !NilEmpty.usu in H. injection H as H.
  apply (f_equal Nat.of_uint) in H.
  rewrite !DecimalNat.Unsigned.of_to in H. exact H.
Qed.

Lemma collector_draws_one_uuid_each_witness :
  exists d w',
    collect_recipes demo_runtime
      [lit "title: Soup"; lit "title: SOUP"; lit "title: Stew"] [] fresh_world =
      (Ok d, w') /\
    map id (dict_values d) = [lit "0"; lit "1"] /\
    NoDup (map id (dict_values d)).
Proof.
  destruct (collector_draws_one_uuid_each demo_runtime
              [lit "title: Soup"; lit "title: SOUP"; lit "title: Stew"]
              fresh_world) as [d [w' [E [Hid [_ [_ [_ Hn]]]]]]].
  exists d, w'. split; [exact E|]. split.
  - vm_compute in E. injection E as <- _. reflexivity.
  - apply Hn. exact str_of_nat_inj.
Defined.

Lemma dict_contains_true (key : str) (d : dict) :
  dict_contains key d = true -> In key (dict_keys d).
Proof.
  rewrite dict_contains_keys. intros H.
  apply existsb_exists in H as [k [Hin E]].
  apply str_eqb_eq in E. subst k. exact Hin.
Qed.

Lemma key_of_parsed (toks : list str) (raw t s i : str) :
  parsed toks raw = (t, s, i) -> key_of toks raw = lower t.
Proof. unfold key_of. intros ->. reflexivity. Qed.

Lemma from_first_cons (toks : list str) (raw : str) (rest : list str)
    (k : str) (r : Recipe) :
  key_of toks raw <> k ->
  from_first toks rest k r -> from_first toks (raw :: rest) k r.
Proof.
  intros Hne [pre [raw' [post [E [Hk [Hn Hp]]]]]].
  exists (raw :: pre), raw', post. rewrite E.
  split; [reflexivity|]. split; [exact Hk|]. split; [|exact Hp].
  cbn [map]. intros [H|H]; [contradiction | exact (Hn H)].
Qed.

Lemma collect_recipes_provenance (rt : Runtime) (raws : list str) :
  forall (d d' : dict) (w w' : World),
    collect_recipes rt raws d w = (Ok d', w') ->
    forall k r, In (k, r) d' ->
      In (k, r) d \/
      (~ In k (dict_keys d) /\ from_first (SPECIAL_TOKENS rt) raws k r).
Proof.
  induction raws as [|raw rest IH]; intros d d' w w' E k r Hin.
  - cbn in E. inversion E; subst. left; exact Hin.
  - revert E. cbn [collect_recipes]. unfold mbind, lift.
    rewrite parse_recipe_output_total.
    destruct (parsed (SPECIAL_TOKENS rt) raw) as [[t s] i] eqn:Ep.
    pose proof (key_of_parsed _ _ _ _ _ Ep) as Hkey.
    assert (Hnew : forall k0 r0,
              In (k0, r0) (d ++ [(lower t, mkRecipe (uuid4 rt (uuids_drawn w)) t s i)]) ->
              dict_contains (lower t) d = false ->
              In (k0, r0) d \/
              (~ In k0 (dict_keys d) /\
               from_first (SPECIAL_TOKENS rt) (raw :: rest) k0 r0)).
    { intros k0 r0 H0 Hc. apply in_app_or in H0 as [H0|[H0|[]]]; [left; exact H0|].
      inversion H0; subst. right. split; [apply dict_contains_false; exact Hc|].
      exists [], raw, rest. rewrite Ep. repeat split; auto. }
    destruct (dict_contains (lower t) d) eqn:Hc.
    + intros E. destruct (IH _ _ _ _ E k r Hin) as [H|[Hn Hf]]; [left; exact H|].
      right. split; [exact Hn|]. apply from_first_cons; [|exact Hf].
      rewrite Hkey. intros <-. apply Hn, dict_contains_true, Hc.
    + unfold draw_uuid4. rewrite (dict_set_new _ _ _ Hc).
      destruct (3 <=? length _).
      * intros E. inversion E; subst. apply Hnew; [exact Hin | reflexivity].
      * intros E. destruct (IH _ _ _ _ E k r Hin) as [H|[Hn Hf]];
          [apply Hnew; [exact H | reflexivity]|].
        assert (Hn' : ~ In k (dict_keys d) /\ lower t <> k).
        { unfold dict_keys in *. rewrite map_app in Hn. cbn [map fst] in Hn.
          split; [intros H | intros H]; apply Hn, in_or_app;
            [left; exact H | right; left; exact H]. }
        right. split; [apply Hn'|]. apply from_first_cons; [|exact Hf].
        rewrite Hkey. apply Hn'.
Qed.

(** X11: every recipe the collector returns is the parsed triple of the
    first raw output whose lower-cased title is its key: of several
    outputs with the same title, case aside, the earliest survives. *)
Theorem collected_from_first_output (rt : Runtime) (raws : list str) (w : World) :
  exists d w',
    collect_recipes rt raws [] w = (Ok d, w') /\
    Forall (fun kv => from_first (SPECIAL_TOKENS rt) raws (fst kv) (snd kv)) d.
Proof.
  destruct (collect_recipes_world rt raws [] w) as [d [w' [E _]]].
  cbn [app] in E. exists d, w'. split; [exact E|].
  apply Forall_forall. intros [k r] Hin. cbn [fst snd].
  destruct (collect_recipes_provenance rt raws _ _ _ _ E k r Hin) as [[]|[_ H]].
  exact H.
Qed.

(** ** Further properties of the request handler *)

(** The handler in closed form on a request with a non-blank ingredient. *)
Lemma generate_recipes_nonblank (rt : Runtime) (ings : list str) (w : World) :
  clean_ingredients ings <> [] ->
  generate_recipes rt (mkRecipeRequest ings) w =
  match generator rt (length (pipeline_calls w)) (call_for ings) with
  | Raise e =>
      let w2 := add_log (LogError (lit "Error during generation: " ++ exn_text e))
                        (world_after_call ings w) in
      match e with
      | HTTPException _ _ => (Raise e, w2)
      | _ =>
          (Raise (HTTPException 500 GENERIC_FAILURE),
           add_log (LogError (lit "Unexpected error in /generate-recipes: "
                              ++ exn_text e)) w2)
      end
  | Ok outputs =>
      match collect_recipes rt
              (map (fun o => strip (get_generated_text o)) outputs) []
              (world_after_call ings w) with
      | (Ok d, w3) =>
          (Ok (mkRecipeResponse (dict_values d)),
           add_log (LogInfo (lit "Generated "
                             ++ str_of_nat (length (dict_values d))
                             ++ lit " recipes")) w3)
      | (Raise e, w3) =>
          match e with
          | HTTPException _ _ => (Raise e, w3)
          | _ =>
              (Raise (HTTPException 500 GENERIC_FAILURE),
               add_log (LogError (lit "Unexpected error in /generate-recipes: "
                                  ++ exn_text e)) w3)
          end
      end
  end.
Proof.
  intros Hne.
  unfold generate_recipes, try_except. cbn [ingredients].
  destruct ings as [|ing ings]; [contradiction Hne; reflexivity|].
  unfold world_after_call, call_for.
  destruct (clean_ingredients (ing :: ings)) as [|e es] eqn:E;
    [contradiction Hne; reflexivity|].
  unfold mbind at 1. unfold logger_info at 1. cbv iota.
  unfold mbind at 1. unfold generate_recipe_text, try_except.
  unfold mbind at 1. unfold call_generator. cbn [pipeline_calls uuids_drawn log].
  destruct (generator rt _ _) as [outputs|e0].
  - unfold ret at 1. cbv iota beta. unfold mbind at 1.
    destruct (collect_recipes rt _ [] _) as [[d|e1] w3]; [reflexivity|].
    destruct e1; reflexivity.
  - destruct e0; reflexivity.
Qed.

(** X12: when the pipeline fails with anything but an HTTP exception, the
    handler answers 500 with the fixed generic message, whatever the text
    of the failure; the failure is written twice to the log and no UUID is
    drawn. *)
Theorem pipeline_failure_is_500 (rt : Runtime) (ings : list str) (w : World)
    (e : exn) :
  clean_ingredients ings <> [] ->
  generator rt (length (pipeline_calls w)) (call_for ings) = Raise e ->
  (forall s d, e <> HTTPException s d) ->
  generate_recipes rt (mkRecipeRequest ings) w =
  (Raise (HTTPException 500 GENERIC_FAILURE),
   mkWorld (pipeline_calls w ++ [call_for ings]) (uuids_drawn w)
     (log w ++
      [LogInfo (lit "Generating recipes for items: "
                ++ join (lit ", ") (clean_ingredients ings));
       LogError (lit "Error during generation: " ++ exn_text e);
       LogError (lit "Unexpected error in /generate-recipes: " ++ exn_text e)])).
Proof.
  intros Hne Hg He. rewrite (generate_recipes_nonblank rt ings w Hne), Hg.
  unfold add_log, world_after_call. cbn [pipeline_calls uuids_drawn log].
  rewrite <- !app_assoc. cbn [app].
  destruct e as [|msg|s d]; [reflexivity | reflexivity|].
  contradiction (He s d). reflexivity.
Qed.

Lemma pipeline_failure_is_500_witness :
  fst (generate_recipes failing_runtime (mkRecipeRequest [lit " Rice "]) fresh_world) =
  Raise (HTTPException 500 GENERIC_FAILURE).
Proof.
  rewrite (pipeline_failure_is_500 failing_runtime [lit " Rice "] fresh_world
             (PipelineError (lit "out of memory"))).
  - reflexivity.
  - discriminate.
  - reflexivity.
  - discriminate.
Defined.

(** X13: whatever goes wrong, the handler raises nothing but an HTTP
    exception: status 400, or status 500 with the generic message, or the
    HTTP exception the pipeline itself raised. *)
Theorem handler_raises_http_only (rt : Runtime) (req : RecipeRequest) (w : World)
    (e : exn) :
  fst (generate_recipes rt req w) = Raise e ->
  exists s d,
    e = HTTPException s d /\
    (s = 400 \/
     (s = 500 /\ d = GENERIC_FAILURE) \/
     generator rt (length (pipeline_calls w)) (call_for (ingredients req)) = Raise e).
Proof.
  destruct req as [ings].
  destruct (clean_ingredients ings) as [|c cs] eqn:Ec.
  - unfold generate_recipes, try_except. cbn [ingredients].
    destruct ings as [|ing ings]; [|rewrite Ec]; cbn;
      intros H; inversion H; subst; eauto.
  - assert (Hne : clean_ingredients ings <> []) by (rewrite Ec; discriminate).
    rewrite (generate_recipes_nonblank rt ings w Hne). cbn [ingredients].
    destruct (generator rt _ _) as [outputs|e0] eqn:Eg.
    + destruct (collect_recipes_world rt
                  (map (fun o => strip (get_generated_text o)) outputs) []
                  (world_after_call ings w)) as [d [w' [E _]]].
      cbn [app] in E. rewrite E. cbn. discriminate.
    + destruct e0 as [|msg|s d]; cbn; intros H; inversion H; subst; eauto 7.
Qed.

Lemma handler_raises_http_only_witness :
  exists s d,
    HTTPException 500 GENERIC_FAILURE = HTTPException s d /\
    (s = 400 \/
     (s = 500 /\ d = GENERIC_FAILURE) \/
     generator failing_runtime 0 (call_for [lit "egg"]) =
       Raise (HTTPException 500 GENERIC_FAILURE)).
Proof.
  apply (handler_raises_http_only failing_runtime
           (mkRecipeRequest [lit "egg"]) fresh_world).
  reflexivity.
Defined.

Lemma parsed_bounds (toks : list str) (raw : str) :
  let '(t, d, _) := parsed toks raw in
  t <> [] /\ length t <= 80 /\ length d <= 200.
Proof.
  unfold parsed. rewrite parse_recipe_output_spec. cbv zeta.
  pose proof (lines_of_nonempty (_clean_special_tokens toks raw)) as Hne.
  destruct (lines_of (_clean_special_tokens toks raw)) as [|first rest].
  - split; [discriminate | split; simpl; lia].
  - split; [|split; apply slice_to_length].
    inversion Hne as [|? ? Hfirst _]; subst.
    apply slice_to_nonempty.
    destruct (str_eqb (title_field (first :: rest)) UNTITLED) eqn:E.
    + apply slice_to_nonempty. exact Hfirst.
    + unfold title_field, title_value in *.
      destruct (last_match P_TITLE (first :: rest)) as [l|]; [|discriminate].
      destruct (truthy (remainder P_TITLE l)) eqn:Ht; [|discriminate].
      apply truthy_true. exact Ht.
Qed.

Lemma first_seen_length (keys seen : list str) :
  length (first_seen seen keys) <= length keys.
Proof.
  revert seen. induction keys as [|k keys IH]; intros seen; cbn [first_seen length];
    [lia|].
  destruct (existsb _ seen); [specialize (IH seen) | specialize (IH (seen ++ [k]))];
    cbn [length]; lia.
Qed.

(** X14: when the pipeline answers, the handler returns between zero and
    three recipes, no more than there are outputs and at least one when
    there is an output; every title is non-empty and at most 80 characters
    long, every description at most 200; titles differ pairwise, case
    aside; the identifiers are the UUIDs drawn, one per recipe; the
    pipeline was called once and the log has gained the two lines
    "Generating recipes for items: ..." and "Generated n recipes". *)
Theorem handler_success (rt : Runtime) (ings : list str) (w : World)
    (outputs : list (option str)) :
  clean_ingredients ings <> [] ->
  generator rt (length (pipeline_calls w)) (call_for ings) = Ok outputs ->
  exists rs w',
    generate_recipes rt (mkRecipeRequest ings) w = (Ok (mkRecipeResponse rs), w') /\
    length rs <= 3 /\ length rs <= length outputs /\
    (outputs <> [] -> rs <> []) /\
    Forall (fun r => title r <> [] /\ length (title r) <= 80 /\
                     length (shortDescription r) <= 200) rs /\
    NoDup (map (fun r => lower (title r)) rs) /\
    map id rs = map (uuid4 rt) (seq (uuids_drawn w) (length rs)) /\
    pipeline_calls w' = pipeline_calls w ++ [call_for ings] /\
    uuids_drawn w' = uuids_drawn w + length rs /\
    log w' =
      log w ++
      [LogInfo (lit "Generating recipes for items: "
                ++ join (lit ", ") (clean_ingredients ings));
       LogInfo (lit "Generated " ++ str_of_nat (length rs) ++ lit " recipes")].
Proof.
  intros Hne Hg. rewrite (generate_recipes_nonblank rt ings w Hne), Hg.
  set (raws := map (fun o => strip (get_generated_text o)) outputs).
  destruct (collect_recipes_spec rt raws [] (world_after_call ings w) dict_ok_nil)
    as [d [w3 [E [Hok [Hl Hk]]]]]; [simpl; lia|].
  destruct (collect_recipes_world rt raws [] (world_after_call ings w))
    as [d2 [w4 [E2 [Hid [Hu [Hp Hlog]]]]]].
  cbn [app] in E2. rewrite E in E2. inversion E2; subst d2 w4. clear E2.
  rewrite E. exists (dict_values d). eexists. split; [reflexivity|].
  assert (Hlen : length (dict_values d) = length d)
    by (unfold dict_values; apply length_map).
  cbn [dict_keys map app length Nat.sub] in Hk.
  assert (Hkl : length d = length (firstn 3 (first_seen [] (map (key_of (SPECIAL_TOKENS rt)) raws)))).
  { rewrite <- Hk. unfold dict_keys. rewrite length_map. reflexivity. }
  rewrite Hlen.
  split; [exact Hl|]. split.
  { rewrite Hkl, length_firstn.
    pose proof (first_seen_length (map (key_of (SPECIAL_TOKENS rt)) raws) []) as H.
    rewrite length_map in H.
    assert (Hr : length raws = length outputs) by apply length_map. lia. }
  split.
  { intros Ho Hnil. destruct outputs as [|o os]; [contradiction Ho; reflexivity|].
    apply (f_equal (@length Recipe)) in Hnil. rewrite Hlen, Hkl in Hnil.
    discriminate Hnil. }
  split.
  { apply Forall_forall. intros r Hin. unfold dict_values in Hin.
    apply in_map_iff in Hin as [[k r'] [Er Hin]]. cbn [snd] in Er. subst r'.
    destruct (collect_recipes_provenance rt raws _ _ _ _ E k r Hin)
      as [[]|[_ [pre [raw [post [_ [_ [_ Hp']]]]]]]].
    pose proof (parsed_bounds (SPECIAL_TOKENS rt) raw) as Hb.
    rewrite <- Hp' in Hb. exact Hb. }
  split; [rewrite (dict_ok_titles _ Hok); apply Hok|].
  split; [exact Hid|].
  unfold add_log. cbn [pipeline_calls uuids_drawn log].
  rewrite Hp, Hu, Hlog. unfold world_after_call.
  cbn [pipeline_calls uuids_drawn log]. rewrite <- app_assoc.
  repeat split.
Qed.

Lemma handler_success_witness :
  exists rs w',
    generate_recipes demo_runtime (mkRecipeRequest [lit "Leek"; lit " "]) fresh_world =
      (Ok (mkRecipeResponse rs), w') /\
    map title rs = [lit "Soup"; lit "Salad"] /\
    map id rs = [lit "0"; lit "1"].
Proof.
  destruct (handler_success demo_runtime [lit "Leek"; lit " "] fresh_world
              demo_outputs) as [rs [w' [E _]]]; [discriminate | reflexivity|].
  exists rs, w'. split; [exact E|].
  vm_compute in E. injection E as <- _. split; reflexivity.
Defined.

(** X15: [generate_recipe_text] calls the pipeline exactly once, with the
    prompt "items: " followed by the items and top_k 60.  On success it
    returns one text per output, in order: the output's "generated_text"
    trimmed, or the empty string for an output without that key; nothing
    is logged.  On failure it re-raises the pipeline's exception unchanged
    after one error line in the log, which ends with the exception's own
    text ("503: busy" for an HTTP exception 503 with detail "busy"). *)
Theorem generate_recipe_text_behaviour (rt : Runtime) (items_str : str)
    (num_recipes max_length : nat) (w : World) :
  let c := mkGenCall (lit "items: " ++ items_str) 60 num_recipes max_length in
  match generator rt (length (pipeline_calls w)) c with
  | Ok outputs =>
      exists texts,
        generate_recipe_text rt items_str num_recipes max_length w =
          (Ok texts, mkWorld (pipeline_calls w ++ [c]) (uuids_drawn w) (log w)) /\
        length texts = length outputs /\
        (forall n t, nth_error outputs n = Some (Some t) ->
                     nth_error texts n = Some (strip t)) /\
        (forall n, nth_error outputs n = Some None -> nth_error texts n = Some []) /\
        Forall (fun t => strip t = t) texts
  | Raise e =>
      generate_recipe_text rt items_str num_recipes max_length w =
        (Raise e,
         mkWorld (pipeline_calls w ++ [c]) (uuids_drawn w)
                 (log w ++ [LogError (lit "Error during generation: " ++ exn_text e)]))
  end.
Proof.
  cbv zeta. unfold generate_recipe_text, try_except, mbind, call_generator.
  destruct (generator rt _ _) as [outputs|e]; [|reflexivity].
  eexists. split; [reflexivity|]. split; [apply length_map|].
  split; [|split].
  - intros n t Hn. rewrite nth_error_map, Hn. reflexivity.
  - intros n Hn. rewrite nth_error_map, Hn. reflexivity.
  - apply Forall_forall. intros t Hin. apply in_map_iff in Hin as [o [<- _]].
    apply strip_idem.
Qed.

Lemma generate_recipe_text_behaviour_witness :
  generate_recipe_text busy_runtime (lit "rice") 3 512 fresh_world =
  (Raise (HTTPException 503 (lit "busy")),
   mkWorld [mkGenCall (lit "items: rice") 60 3 512] 0
           [LogError (lit "Error during generation: 503: busy")]) /\
  exists texts,
    generate_recipe_text demo_runtime (lit "rice") 3 512 fresh_world =
      (Ok texts, mkWorld [mkGenCall (lit "items: rice") 60 3 512] 0 []) /\
    nth_error texts 1 = Some (lit "title: soup<section>directions: simmer").
Proof.
  split.
  - exact (generate_recipe_text_behaviour busy_runtime (lit "rice") 3 512 fresh_world).
  - destruct (generate_recipe_text_behaviour demo_runtime (lit "rice") 3 512
                fresh_world) as [texts [E [_ [Hs _]]]].
    exists texts. split; [exact E|].
    exact (Hs 1 (lit " title: soup<section>directions: simmer") eq_refl).
Defined.

(** ** Lines: where a newline can and cannot be *)

Lemma split_newline_pieces (s : str) :
  Forall (fun p => ~ In NL p) (split [NL] s).
Proof.
  unfold split. induction s as [|c r IH].
  - repeat constructor. intros [].
  - cbn [split_scan startswith length Nat.sub].
    destruct (Ascii.eqb NL c) eqn:E; cbn [andb].
    + constructor; [intros [] | exact IH].
    + apply Ascii.eqb_neq in E.
      destruct (split_scan [NL] 0 r) as [|h t]; cbn [cons_head].
      * repeat constructor. intros [H|[]]. congruence.
      * inversion IH as [|? ? Hh Ht]; subst. constructor; [|exact Ht].
        intros [H|H]; [congruence | exact (Hh H)].
Qed.

Lemma in_lstrip (c : ascii) (s : str) : In c (lstrip s) -> In c s.
Proof.
  induction s as [|x r IH]; cbn [lstrip]; [tauto|].
  destruct (isspace x); [intros H; right; exact (IH H) | tauto].
Qed.

Lemma in_strip (c : ascii) (s : str) : In c (strip s) -> In c s.
Proof.
  unfold strip, rstrip. intros H.
  apply in_rev, in_lstrip in H. rewrite <- in_rev in H.
  apply in_lstrip. exact H.
Qed.

Lemma in_skipn_str (c : ascii) (n : nat) (s : str) : In c (skipn n s) -> In c s.
Proof.
  intros H. rewrite <- (firstn_skipn n s). apply in_or_app. right; exact H.
Qed.

Lemma in_slice_to (c : ascii) (n : nat) (s : str) : In c (slice_to n s) -> In c s.
Proof.
  unfold slice_to. intros H. rewrite <- (firstn_skipn n s).
  apply in_or_app. left; exact H.
Qed.

Lemma split_scan_incl (sep : str) (s : str) :
  forall skip, Forall (fun p => incl p s) (split_scan sep skip s).
Proof.
  induction s as [|c r IH]; intros skip.
  - constructor; [apply incl_refl | constructor].
  - assert (Htl : forall k, Forall (fun p => incl p (c :: r)) (split_scan sep k r)).
    { intros k. apply (Forall_impl _ (fun p H => incl_tl c H) (IH k)). }
    cbn [split_scan]. destruct skip as [|k]; [|apply Htl].
    destruct (startswith (c :: r) sep).
    + constructor; [intros x [] | apply Htl].
    + specialize (Htl 0). destruct (split_scan sep 0 r) as [|h t]; cbn [cons_head].
      * constructor; [|constructor]. intros x [<-|[]]. left; reflexivity.
      * inversion Htl as [|? ? Hh Ht]; subst. constructor; [|exact Ht].
        intros x [<-|H]; [left; reflexivity | exact (Hh x H)].
Qed.

Lemma upper_char_newline (c : ascii) : upper_char c = NL -> c = NL.
Proof. ascii_cases c; vm_compute; intros H; try discriminate H; reflexivity. Qed.

Lemma lower_char_newline (c : ascii) : lower_char c = NL -> c = NL.
Proof. ascii_cases c; vm_compute; intros H; try discriminate H; reflexivity. Qed.

Lemma in_capitalize_newline (s : str) : In NL (capitalize s) -> In NL s.
Proof.
  destruct s as [|c r]; [tauto|]. cbn [capitalize]. intros [H|H].
  - left. apply upper_char_newline. exact H.
  - right. unfold lower in H. apply in_map_iff in H as [x [Hx Hin]].
    apply lower_char_newline in Hx. subst x. exact Hin.
Qed.

Lemma uint_no_newline (d : Decimal.uint) :
  ~ In NL (list_ascii_of_string (NilEmpty.string_of_uint d)).
Proof.
  induction d; cbn; intros H; try (destruct H as [H|H]; [discriminate H|]); tauto.
Qed.

Lemma lines_of_no_newline (s : str) : Forall (fun l => ~ In NL l) (lines_of s).
Proof.
  unfold lines_of. apply Forall_forall. intros l Hl.
  apply in_map_iff in Hl as [p [<- Hp]]. apply filter_In in Hp as [Hp _].
  pose proof (split_newline_pieces s) as H. rewrite Forall_forall in H.
  intros Hin. apply (H p Hp). apply in_strip. exact Hin.
Qed.

Lemma remainder_no_newline (p l : str) : ~ In NL l -> ~ In NL (remainder p l).
Proof.
  unfold remainder. intros H Hin. apply H.
  apply in_strip, in_skipn_str in Hin. exact Hin.
Qed.

Lemma items_of_no_newline (text : str) :
  ~ In NL text -> Forall (fun it => ~ In NL it) (items_of text).
Proof.
  intros H. unfold items_of. apply Forall_forall. intros it Hit.
  apply in_map_iff in Hit as [p [<- Hp]]. apply filter_In in Hp as [Hp _].
  pose proof (split_scan_incl (lit "--") text 0) as Hi.
  rewrite Forall_forall in Hi. intros Hin. apply H.
  apply in_capitalize_newline, in_strip in Hin. apply (Hi p Hp). exact Hin.
Qed.

Lemma join_no_newline (sep : str) (l : list str) :
  ~ In NL sep -> Forall (fun p => ~ In NL p) l -> ~ In NL (join sep l).
Proof.
  intros Hs. induction 1 as [|x l Hx Hl IH]; [intros []|].
  destruct l as [|y l]; [exact Hx|].
  change (join sep (x :: y :: l)) with (x ++ sep ++ join sep (y :: l)).
  intros H. apply in_app_or in H as [H|H]; [exact (Hx H)|].
  apply in_app_or in H as [H|H]; [exact (Hs H) | exact (IH H)].
Qed.

Lemma last_match_in (p : str) (lines : list str) (l : str) :
  last_match p lines = Some l -> In l lines.
Proof.
  induction lines as [|x lines IH]; cbn [last_match]; [discriminate|].
  destruct (last_match p lines) as [y|].
  - intros H. right. apply IH. exact H.
  - destruct (has_prefix p x); [|discriminate].
    intros H. inversion H. left; reflexivity.
Qed.

Lemma field_no_newline (p : str) (lines : list str) :
  Forall (fun l => ~ In NL l) lines ->
  ~ In NL (match last_match p lines with
           | Some l => remainder p l
           | None => []
           end).
Proof.
  intros H. destruct (last_match p lines) as [l|] eqn:E; [|intros []].
  apply remainder_no_newline. rewrite Forall_forall in H.
  apply H. apply (last_match_in _ _ _ E).
Qed.

Lemma literal_no_newline (s : string) :
  forallb (fun c => negb (Ascii.eqb c NL)) (lit s) = true -> ~ In NL (lit s).
Proof.
  intros H Hin. rewrite forallb_forall in H. specialize (H NL Hin).
  rewrite Ascii.eqb_refl in H. discriminate H.
Qed.

(** X16: the title and the description never contain a newline. *)
Theorem title_and_description_one_line (toks : list str) (raw : str) :
  exists t d i,
    parse_recipe_output toks raw = Ok (t, d, i) /\ ~ In NL t /\ ~ In NL d.
Proof.
  rewrite parse_recipe_output_spec. cbv zeta.
  pose proof (lines_of_no_newline (_clean_special_tokens toks raw)) as Hl.
  destruct (lines_of (_clean_special_tokens toks raw)) as [|first rest].
  - do 3 eexists. split; [reflexivity|].
    split; [apply literal_no_newline; reflexivity | intros []].
  - do 3 eexists. split; [reflexivity|]. split.
    + intros H. apply in_slice_to in H.
      destruct (str_eqb _ _).
      * apply in_slice_to in H. inversion Hl as [|? ? Hf _]; subst. exact (Hf H).
      * unfold title_field, title_value in H.
        pose proof (field_no_newline P_TITLE _ Hl) as Hf.
        destruct (last_match P_TITLE (first :: rest)) as [l|];
          [|revert H; apply literal_no_newline; reflexivity].
        destruct (truthy (remainder P_TITLE l)); [exact (Hf H)|].
        revert H; apply literal_no_newline; reflexivity.
    + intros H. apply in_slice_to in H. unfold short_desc_of in H.
      destruct (truthy _); [|destruct H].
      pose proof (items_of_no_newline _ (field_no_newline P_INGREDIENTS _ Hl)) as Hi.
      destruct (items_of (ingredients_field (first :: rest))) as [|it its] eqn:E;
        [destruct H|].
      apply in_app_or in H as [H|H];
        [revert H; apply literal_no_newline; reflexivity|].
      revert H. apply join_no_newline;
        [apply literal_no_newline; reflexivity|].
      apply Forall_forall. intros x Hx.
      change (Forall (fun it => ~ In NL it)
                (items_of (ingredients_field (first :: rest)))) in Hi.
      rewrite E in Hi.
      rewrite Forall_forall in Hi.
      apply Hi. rewrite <- (firstn_skipn 6 (it :: its)).
      apply in_or_app. left; exact Hx.
Qed.

Lemma split_newline_none (p : str) : ~ In NL p -> split [NL] p = [p].
Proof.
  unfold split. induction p as [|c p IH]; intros H; [reflexivity|].
  cbn [split_scan startswith length Nat.sub].
  assert (E : Ascii.eqb NL c = false)
    by (apply Ascii.eqb_neq; intros <-; apply H; left; reflexivity).
  rewrite E. cbn [andb]. rewrite IH by (intros Hin; apply H; right; exact Hin).
  reflexivity.
Qed.

Lemma split_newline_app (p rest : str) :
  ~ In NL p -> split [NL] (p ++ NL :: rest) = p :: split [NL] rest.
Proof.
  unfold split. induction p as [|c p IH]; intros H.
  - cbn [app split_scan startswith length Nat.sub].
    rewrite Ascii.eqb_refl. reflexivity.
  - cbn [app split_scan startswith length Nat.sub].
    assert (E : Ascii.eqb NL c = false)
      by (apply Ascii.eqb_neq; intros <-; apply H; left; reflexivity).
    rewrite E. cbn [andb]. rewrite IH by (intros Hin; apply H; right; exact Hin).
    reflexivity.
Qed.

(** Joining newline-free pieces with newlines and splitting again gives
    the pieces back. *)
Lemma split_join_newline (l : list str) :
  l <> [] -> Forall (fun p => ~ In NL p) l -> split [NL] (join [NL] l) = l.
Proof.
  intros Hne H. induction H as [|x l Hx Hl IH]; [contradiction Hne; reflexivity|].
  destruct l as [|y l]; [apply split_newline_none; exact Hx|].
  change (join [NL] (x :: y :: l)) with (x ++ NL :: join [NL] (y :: l)).
  rewrite (split_newline_app _ _ Hx), IH by discriminate. reflexivity.
Qed.

Lemma numbered_no_newline (steps : list str) :
  forall i, Forall (fun s => ~ In NL s) steps ->
            Forall (fun s => ~ In NL s) (numbered i steps).
Proof.
  induction steps as [|s steps IH]; intros i H; [constructor|].
  inversion H as [|? ? Hs Hr]; subst. cbn [numbered].
  constructor; [|apply IH; exact Hr].
  intros Hin. apply in_app_or in Hin as [Hin|Hin];
    [exact (uint_no_newline _ Hin)|].
  apply in_app_or in Hin as [Hin|Hin]; [|exact (Hs Hin)].
  revert Hin. apply literal_no_newline. reflexivity.
Qed.

Lemma nth_error_numbered (steps : list str) :
  forall i k step,
    nth_error steps k = Some step ->
    nth_error (numbered i steps) k =
    Some (str_of_nat (i + k + 1) ++ lit ". " ++ step).
Proof.
  induction steps as [|s steps IH]; intros i k step H;
    [destruct k; discriminate H|].
  destruct k as [|k]; cbn [numbered nth_error] in *.
  - inversion H; subst. rewrite Nat.add_0_r. reflexivity.
  - rewrite (IH (S i) k step H). do 3 f_equal. lia.
Qed.

Lemma numbered_length (steps : list str) :
  forall i, length (numbered i steps) = length steps.
Proof.
  induction steps as [|s steps IH]; intros i; cbn [numbered length];
    [reflexivity | rewrite IH; reflexivity].
Qed.

(** X17: when the last directions line yields at least one step, the
    instructions are a numbered list with exactly one line per step: line
    k (counting from 1) is "k. " followed by the k-th step. *)
Theorem instructions_one_line_per_step (toks : list str) (raw : str) :
  let steps :=
    items_of (directions_field (lines_of (_clean_special_tokens toks raw))) in
  steps <> [] ->
  exists t d i,
    parse_recipe_output toks raw = Ok (t, d, i) /\
    length (split [NL] i) = length steps /\
    forall k step,
      nth_error steps k = Some step ->
      nth_error (split [NL] i) k = Some (str_of_nat (k + 1) ++ lit ". " ++ step).
Proof.
  cbv zeta. intros Hne. rewrite parse_recipe_output_spec. cbv zeta.
  pose proof (lines_of_no_newline (_clean_special_tokens toks raw)) as Hl.
  destruct (lines_of (_clean_special_tokens toks raw)) as [|first rest];
    [contradiction Hne; reflexivity|].
  do 3 eexists. split; [reflexivity|].
  pose proof (items_of_no_newline _ (field_no_newline P_DIRECTIONS _ Hl)) as Hs.
  change (Forall (fun it => ~ In NL it)
            (items_of (directions_field (first :: rest)))) in Hs.
  unfold instructions_of.
  destruct (directions_field (first :: rest)) as [|c f];
    [contradiction Hne; reflexivity|].
  cbn [truthy]. destruct (items_of (c :: f)) as [|s steps] eqn:E;
    [contradiction Hne; reflexivity|].
  rewrite split_join_newline;
    [|discriminate | apply numbered_no_newline; exact Hs].
  split; [apply numbered_length|].
  intros k step Hk. apply (nth_error_numbered _ 0 k step Hk).
Qed.

Lemma instructions_one_line_per_step_witness :
  exists t d i,
    parse_recipe_output T5_TOKENS
      (lit "title: Rice<section>directions: rinse<sep>boil<sep> <sep>serve</s>") =
      Ok (t, d, i) /\
    split [NL] i = [lit "1. Rinse"; lit "2. Boil"; lit "3. Serve"].
Proof.
  destruct (instructions_one_line_per_step T5_TOKENS
              (lit "title: Rice<section>directions: rinse<sep>boil<sep> <sep>serve</s>"))
    as [t [d [i [E _]]]]; [discriminate|].
  exists t, d, i. split; [exact E|].
  vm_compute in E. injection E as _ _ <-. reflexivity.
Defined.

(** ** Capitalized items and the title, case by case *)

Lemma str_eqb_eq_false (a b : str) : a <> b -> str_eqb a b = false.
Proof.
  intros H. destruct (str_eqb a b) eqn:E; [|reflexivity].
  apply str_eqb_eq in E. contradiction.
Qed.

(** On ASCII text [capitalize] is idempotent. *)
Lemma capitalize_idem (s : str) :
  ascii_text s = true -> capitalize (capitalize s) = capitalize s.
Proof.
  intros _. destruct s as [|c r]; [reflexivity|]. cbn [capitalize].
  rewrite upper_char_idem, lower_idem. reflexivity.
Qed.

Lemma ascii_text_incl (p s : str) :
  incl p s -> ascii_text s = true -> ascii_text p = true.
Proof.
  unfold ascii_text. intros Hi Hs. rewrite forallb_forall in *.
  intros c Hc. apply Hs, Hi, Hc.
Qed.

(** X6: on ASCII text, every ingredient and every step taken from a
    "--"-separated field is non-empty and already capitalized:
    [capitalize] leaves it unchanged. *)
Theorem items_capitalized (text : str) :
  ascii_text text = true ->
  Forall (fun it => it <> [] /\ capitalize it = it) (items_of text).
Proof.
  intros Ha. unfold items_of. apply Forall_forall. intros it Hin.
  apply in_map_iff in Hin as [s [<- Hs]].
  apply filter_In in Hs as [Hp Hs]. apply truthy_true in Hs.
  split; [destruct (strip s); [contradiction Hs; reflexivity | discriminate]|].
  apply capitalize_idem.
  pose proof (split_scan_incl (lit "--") text 0) as Hi.
  rewrite Forall_forall in Hi.
  apply (ascii_text_incl (strip s) text); [|exact Ha].
  intros c Hc. apply (Hi s Hp). apply in_strip. exact Hc.
Qed.

Lemma items_capitalized_witness :
  Forall (fun it => it <> [] /\ capitalize it = it)
         (items_of (lit "sea salt -- BLACK pepper --  -- oil")).
Proof.
  apply (items_capitalized (lit "sea salt -- BLACK pepper --  -- oil")).
  reflexivity.
Defined.

(** X18: the title is never empty.  With no non-empty line it is
    "Untitled Recipe"; with no title line it is the first non-empty line
    cut to 80 characters; when the last title line has a non-empty
    remainder other than "Untitled Recipe" it is that remainder cut to 80
    characters. *)
Theorem title_never_empty (toks : list str) (raw : str) :
  exists t d i,
    parse_recipe_output toks raw = Ok (t, d, i) /\
    t <> [] /\
    (lines_of (_clean_special_tokens toks raw) = [] -> t = UNTITLED) /\
    (forall first rest,
       lines_of (_clean_special_tokens toks raw) = first :: rest ->
       last_match P_TITLE (first :: rest) = None ->
       t = slice_to 80 first) /\
    (forall l,
       last_match P_TITLE (lines_of (_clean_special_tokens toks raw)) = Some l ->
       remainder P_TITLE l <> [] ->
       remainder P_TITLE l <> UNTITLED ->
       t = slice_to 80 (remainder P_TITLE l)).
Proof.
  destruct (parsed_title_cases toks raw) as [t [d [i [E H]]]].
  exists t, d, i. split; [exact E|].
  pose proof (parsed_bounds toks raw) as Hb.
  unfold parsed in Hb. rewrite E in Hb. split; [apply Hb|].
  destruct (lines_of (_clean_special_tokens toks raw)) as [|first rest].
  - split; [intros _; exact H|]. split; [discriminate|]. discriminate.
  - split; [discriminate|]. split.
    + intros f r Ef Hn. inversion Ef; subst f r. subst t.
      unfold title_field. rewrite Hn, str_eqb_refl. apply slice_to_idem.
    + intros l Hl Hne Hns. subst t. unfold title_field, title_value.
      rewrite Hl. apply truthy_true in Hne. rewrite Hne.
      apply str_eqb_eq_false in Hns. rewrite Hns. reflexivity.
Qed.

Lemma title_never_empty_witness :
  exists d i,
    parse_recipe_output T5_TOKENS
      (lit "Serves two<section>TITLE: Leek soup <section>title: Leek pie</s>") =
    Ok (lit "Leek pie", d, i).
Proof.
  destruct (title_never_empty T5_TOKENS
              (lit "Serves two<section>TITLE: Leek soup <section>title: Leek pie</s>"))
    as [t [d [i [E [_ [_ [_ H]]]]]]].
  exists d, i. rewrite E. do 3 f_equal.
  apply (H (lit "title: Leek pie")); [reflexivity | discriminate | discriminate].
Defined.
